(** * The call signalling engine of [src/webrtc/call.ts]

    A shallow embedding of the [MatrixCall] class: its fields become a record,
    its methods become computations in a small state monad over a [World] that
    holds the call object together with what the call can observe of its
    surroundings (the signalling transport, the timer wheel, the event
    listeners and the media streams it shares with the peer connection).

    Suspension points.  The methods of the class are JavaScript [async]
    functions.  Awaits on the transport ([client.sendEvent]) and on timers
    ([setTimeout]) are real suspension points of the model: the code after
    them is a separate continuation that runs when the environment delivers
    the outcome, and any other event may run in between.  Awaits on the
    WebRTC stack ([setRemoteDescription], [createAnswer], ...) are modelled as
    completing at once with the outcome chosen by the stack.

    Left out: the replacement of a call by another one ([replacedBy] and the
    [successor] field), the mute and hold setters, and the screen sharing
    that the source has commented out. *)

From stdpp Require Import base option list gmap strings.
From Stdlib Require Import ZArith Lia.

Open Scope string_scope.
Open Scope list_scope.

(** ** Enumerations (lines 75-187 of call.ts) *)

Inductive CallState :=
| Fledgling | InviteSent | WaitLocalMedia | CreateOffer | CreateAnswer
| Connecting | Connected | Ringing | Ended.

Inductive CallType := Voice | Video.
Inductive CallDirection := Inbound | Outbound.
Inductive CallParty := Local | Remote.

(** [CreateAnswerFailed] is [CallErrorCode.CreateAnswer], named apart from the
    state [CallState.CreateAnswer]. *)
Inductive CallErrorCode :=
| UserHangup | LocalOfferFailed | NoUserMedia | UnknownDevices | SendInvite
| CreateAnswerFailed | SendAnswer | SetRemoteDescription | SetLocalDescription
| AnsweredElsewhere | IceFailed | InviteTimeout | Replaced | SignallingFailed.

(** The enum is a string enum: a hangup reason is stored, and received from
    the wire, as a string. *)
Definition code_string (c : CallErrorCode) : string :=
  match c with
  | UserHangup => "user_hangup"
  | LocalOfferFailed => "local_offer_failed"
  | NoUserMedia => "no_user_media"
  | UnknownDevices => "unknown_devices"
  | SendInvite => "send_invite"
  | CreateAnswerFailed => "create_answer"
  | SendAnswer => "send_answer"
  | SetRemoteDescription => "set_remote_description"
  | SetLocalDescription => "set_local_description"
  | AnsweredElsewhere => "answered_elsewhere"
  | IceFailed => "ice_failed"
  | InviteTimeout => "invite_timeout"
  | Replaced => "replaced"
  | SignallingFailed => "signalling_timeout"
  end.

#[global] Instance CallState_eq_dec : EqDecision CallState.
Proof. solve_decision. Defined.
#[global] Instance CallType_eq_dec : EqDecision CallType.
Proof. solve_decision. Defined.
#[global] Instance CallDirection_eq_dec : EqDecision CallDirection.
Proof. solve_decision. Defined.
#[global] Instance CallParty_eq_dec : EqDecision CallParty.
Proof. solve_decision. Defined.
#[global] Instance CallErrorCode_eq_dec : EqDecision CallErrorCode.
Proof. solve_decision. Defined.

Definition VOIP_PROTO_VERSION : Z := 0.
Definition CALL_TIMEOUT_MS : Z := 60000.

(** ** JavaScript values that cross the boundary *)

(** [x || null] on a value that is a string, [null] or [undefined]: the empty
    string is falsy too. *)
Definition or_null (x : option string) : option string :=
  match x with
  | Some s => if decide (s = "") then None else Some s
  | None => None
  end.

(** Truthiness of an optional string. *)
Definition truthy (x : option string) : bool :=
  match x with
  | Some s => bool_decide (s ≠ "")
  | None => false
  end.

(** ** Media streams and the peer connection *)

Inductive TrackKind := AudioTrack | VideoTrack.
#[global] Instance TrackKind_eq_dec : EqDecision TrackKind.
Proof. solve_decision. Defined.

Record MediaStreamTrack := {
  kind : TrackKind;
  enabled : bool;
  stopped : bool;
}.

(** A [MediaStream] object is shared between the call and the peer
    connection, so the call holds a reference and the tracks live in a store. *)
Definition StreamId := nat.

Record RTCSessionDescriptionInit := {
  sdp : option string;
  sdpType : option string;
}.

Record RTCIceCandidate := {
  candidate : string;
  sdpMid : option string;
  sdpMLineIndex : option Z;
}.

Inductive SignalingState :=
| Stable | HaveLocalOffer | HaveRemoteOffer | HaveLocalPranswer
| HaveRemotePranswer | Closed.
Inductive IceGatheringState := GatheringNew | Gathering | GatheringComplete.
Inductive IceConnectionState :=
| IceNew | IceChecking | IceConnected | IceCompleted | IceFailedState
| IceDisconnected | IceClosed.

#[global] Instance SignalingState_eq_dec : EqDecision SignalingState.
Proof. solve_decision. Defined.
#[global] Instance IceGatheringState_eq_dec : EqDecision IceGatheringState.
Proof. solve_decision. Defined.
#[global] Instance IceConnectionState_eq_dec : EqDecision IceConnectionState.
Proof. solve_decision. Defined.

(** What the call reads from, and hands to, its [RTCPeerConnection]. *)
Record RTCPeerConnection := {
  signalingState : SignalingState;
  iceGatheringState : IceGatheringState;
  iceConnectionState : IceConnectionState;
  localDescription : option RTCSessionDescriptionInit;
  remoteDescription : option RTCSessionDescriptionInit;
  remoteStreams : list StreamId;        (* getRemoteStreams() *)
  localStreams : list StreamId;         (* addStream(stream) *)
  (* the candidates handed to addIceCandidate(cand), in order; an exception
     thrown there is caught and logged (lines 847-853) *)
  remoteCandidates : list RTCIceCandidate;
}.

(** [new RTCPeerConnection(...)]. *)
Definition newPeerConnection : RTCPeerConnection :=
  {| signalingState := Stable; iceGatheringState := GatheringNew;
     iceConnectionState := IceNew; localDescription := None;
     remoteDescription := None; remoteStreams := []; localStreams := [];
     remoteCandidates := [] |}.

(** The WebRTC stack is outside the call: it decides whether a description is
    accepted and what the connection looks like afterwards.  [None] is a
    rejected promise (or a thrown exception). *)
Class WebRTC := {
  rtc_setRemoteDescription :
    RTCPeerConnection → option RTCSessionDescriptionInit → option RTCPeerConnection;
  rtc_setLocalDescription :
    RTCPeerConnection → option RTCSessionDescriptionInit → option RTCPeerConnection;
  rtc_createAnswer : RTCPeerConnection → option RTCSessionDescriptionInit;
  rtc_createOffer : RTCPeerConnection → option RTCSessionDescriptionInit;
}.

(** ** The call object (lines 225-309) *)

Definition TimerId := nat.

Record MatrixCall := {
  roomId : string;
  callId : string;
  ourPartyId : string;
  type : option CallType;
  state : CallState;
  hangupParty : option CallParty;
  hangupReason : string;
  direction : option CallDirection;
  candidateSendQueue : list RTCIceCandidate;
  candidateSendTries : nat;
  sentEndOfCandidates : bool;
  peerConn : option RTCPeerConnection;
  screenSharingStream : option StreamId;
  remoteStream : option StreamId;
  localAVStream : option StreamId;
  inviteOrAnswerSent : bool;
  waitForLocalAVStream : bool;
  opponentVersion : option Z;
  (* [None]: undefined, no partner chosen yet; [Some None]: null, a partner
     was chosen and sent no party id; [Some (Some p)]: the partner's id. *)
  opponentPartyId : option (option string);
  inviteTimeout : option TimerId;
  remoteOnHold : bool;
  micMuted : bool;
  vidMuted : bool;
  makingOffer : bool;
  ignoreOffer : bool;
}.

(** The constructor (lines 269-309), for a client whose device id is
    [deviceId]. *)
Definition newMatrixCall (room cid deviceId : string) : MatrixCall :=
  {| roomId := room; callId := cid; ourPartyId := deviceId; type := None;
     state := Fledgling; hangupParty := None; hangupReason := "";
     direction := None; candidateSendQueue := []; candidateSendTries := 0;
     sentEndOfCandidates := false; peerConn := None;
     screenSharingStream := None; remoteStream := None; localAVStream := None;
     inviteOrAnswerSent := false; waitForLocalAVStream := false;
     opponentVersion := None; opponentPartyId := None; inviteTimeout := None;
     remoteOnHold := false; micMuted := false; vidMuted := false;
     makingOffer := false; ignoreOffer := false |}.

(** ** The surroundings of a call *)

(** Values of the fields of a signalling message. *)
Inductive JVal :=
| JNum (n : Z)
| JStr (s : string)
| JDescription (d : option RTCSessionDescriptionInit)
| JCandidates (l : list RTCIceCandidate).

(** One call of [client.sendEvent(roomId, eventType, content)]. *)
Record VoipEvent := {
  ev_room : string;
  ev_type : string;
  ev_content : gmap string JVal;
}.

(** One call of [this.emit(...)]. *)
Inductive Emitted :=
| EmitState (new old : CallState)
| EmitHangup
| EmitError (code : CallErrorCode)
| EmitHoldUnhold (onHold : bool).

(** The callbacks the class hands to [setTimeout]. *)
Inductive TimerCallback :=
| CbInviteExpired         (* initWithInvite, lines 424-435 *)
| CbSendAnswer            (* gotUserMediaForAnswer, lines 754-758 *)
| CbOfferGathered         (* gotLocalOffer, lines 1006-1008 *)
| CbInviteTimeout         (* gotLocalOffer, lines 1038-1043 *)
| CbSendCandidateQueue.   (* queueCandidate and sendCandidateQueue *)

Record Timer := {
  timer_id : TimerId;
  timer_delay : Z;
  timer_cb : TimerCallback;
}.

(** The code that waits for a promise of the transport or of the media
    devices: [then]/[catch] handlers and the rest of an [async] method. *)
Inductive Continuation :=
| KAnswer                                  (* sendAnswer, lines 697-717 *)
| KOffer                                   (* gotLocalOffer, lines 1032-1061 *)
| KCandidates (cands : list RTCIceCandidate)  (* sendCandidateQueue *)
| KMediaForAnswer                          (* answer, lines 467-474 *)
| KMediaForInvite.                         (* placeCallWithConstraints *)

Record World := {
  call : MatrixCall;
  sent : list VoipEvent;          (* client.sendEvent calls, oldest first *)
  inflight : list Continuation;   (* promises that are still pending *)
  cancelled : nat;                (* client.cancelPendingEvent calls *)
  emitted : list Emitted;         (* events given to the listeners *)
  timers : list Timer;            (* pending timers *)
  nextTimer : TimerId;
  streams : gmap StreamId (list MediaStreamTrack);
}.

(** ** Field updates

    [set_f v c] is [c] with field [f] replaced by [v].  The setters are built
    from the eta-expansion of the record by abstracting the one projection. *)

Definition MatrixCall_eta (c : MatrixCall) : MatrixCall :=
  {| roomId := roomId c; callId := callId c; ourPartyId := ourPartyId c;
     type := type c; state := state c; hangupParty := hangupParty c;
     hangupReason := hangupReason c; direction := direction c;
     candidateSendQueue := candidateSendQueue c;
     candidateSendTries := candidateSendTries c;
     sentEndOfCandidates := sentEndOfCandidates c; peerConn := peerConn c;
     screenSharingStream := screenSharingStream c;
     remoteStream := remoteStream c; localAVStream := localAVStream c;
     inviteOrAnswerSent := inviteOrAnswerSent c;
     waitForLocalAVStream := waitForLocalAVStream c;
     opponentVersion := opponentVersion c;
     opponentPartyId := opponentPartyId c; inviteTimeout := inviteTimeout c;
     remoteOnHold := remoteOnHold c; micMuted := micMuted c;
     vidMuted := vidMuted c; makingOffer := makingOffer c;
     ignoreOffer := ignoreOffer c |}.

Definition World_eta (w : World) : World :=
  {| call := call w; sent := sent w; inflight := inflight w;
     cancelled := cancelled w; emitted := emitted w; timers := timers w;
     nextTimer := nextTimer w; streams := streams w |}.

Definition RTCPeerConnection_eta (pc : RTCPeerConnection) : RTCPeerConnection :=
  {| signalingState := signalingState pc;
     iceGatheringState := iceGatheringState pc;
     iceConnectionState := iceConnectionState pc;
     localDescription := localDescription pc;
     remoteDescription := remoteDescription pc;
     remoteStreams := remoteStreams pc; localStreams := localStreams pc;
     remoteCandidates := remoteCandidates pc |}.

Ltac setter eta proj :=
  let v := fresh "v" in
  let r := fresh "r" in
  intros v r;
  let body := eval cbv beta delta [eta] in (eta r) in
  lazymatch eval pattern (proj r) in body with
  | ?f _ => let t := eval cbv beta in (f v) in exact t
  end.

Definition set_type : option CallType → MatrixCall → MatrixCall.
Proof. setter MatrixCall_eta type. Defined.
Definition set_state : CallState → MatrixCall → MatrixCall.
Proof. setter MatrixCall_eta state. Defined.
Definition set_hangupParty : option CallParty → MatrixCall → MatrixCall.
Proof. setter MatrixCall_eta hangupParty. Defined.
Definition set_hangupReason : string → MatrixCall → MatrixCall.
Proof. setter MatrixCall_eta hangupReason. Defined.
Definition set_direction : option CallDirection → MatrixCall → MatrixCall.
Proof. setter MatrixCall_eta direction. Defined.
Definition set_candidateSendQueue :
  list RTCIceCandidate → MatrixCall → MatrixCall.
Proof. setter MatrixCall_eta candidateSendQueue. Defined.
Definition set_candidateSendTries : nat → MatrixCall → MatrixCall.
Proof. setter MatrixCall_eta candidateSendTries. Defined.
Definition set_sentEndOfCandidates : bool → MatrixCall → MatrixCall.
Proof. setter MatrixCall_eta sentEndOfCandidates. Defined.
Definition set_peerConn : option RTCPeerConnection → MatrixCall → MatrixCall.
Proof. setter MatrixCall_eta peerConn. Defined.
Definition set_remoteStream : option StreamId → MatrixCall → MatrixCall.
Proof. setter MatrixCall_eta remoteStream. Defined.
Definition set_localAVStream : option StreamId → MatrixCall → MatrixCall.
Proof. setter MatrixCall_eta localAVStream. Defined.
Definition set_inviteOrAnswerSent : bool → MatrixCall → MatrixCall.
Proof. setter MatrixCall_eta inviteOrAnswerSent. Defined.
Definition set_waitForLocalAVStream : bool → MatrixCall → MatrixCall.
Proof. setter MatrixCall_eta waitForLocalAVStream. Defined.
Definition set_opponentVersion : option Z → MatrixCall → MatrixCall.
Proof. setter MatrixCall_eta opponentVersion. Defined.
Definition set_opponentPartyId :
  option (option string) → MatrixCall → MatrixCall.
Proof. setter MatrixCall_eta opponentPartyId. Defined.
Definition set_inviteTimeout : option TimerId → MatrixCall → MatrixCall.
Proof. setter MatrixCall_eta inviteTimeout. Defined.
Definition set_makingOffer : bool → MatrixCall → MatrixCall.
Proof. setter MatrixCall_eta makingOffer. Defined.
Definition set_ignoreOffer : bool → MatrixCall → MatrixCall.
Proof. setter MatrixCall_eta ignoreOffer. Defined.

Definition set_call : MatrixCall → World → World.
Proof. setter World_eta call. Defined.
Definition set_sent : list VoipEvent → World → World.
Proof. setter World_eta sent. Defined.
Definition set_inflight : list Continuation → World → World.
Proof. setter World_eta inflight. Defined.
Definition set_cancelled : nat → World → World.
Proof. setter World_eta cancelled. Defined.
Definition set_emitted : list Emitted → World → World.
Proof. setter World_eta emitted. Defined.
Definition set_timers : list Timer → World → World.
Proof. setter World_eta timers. Defined.
Definition set_nextTimer : TimerId → World → World.
Proof. setter World_eta nextTimer. Defined.
Definition set_streams :
  gmap StreamId (list MediaStreamTrack) → World → World.
Proof. setter World_eta streams. Defined.

Definition set_iceGatheringState :
  IceGatheringState → RTCPeerConnection → RTCPeerConnection.
Proof. setter RTCPeerConnection_eta iceGatheringState. Defined.
Definition set_iceConnectionState :
  IceConnectionState → RTCPeerConnection → RTCPeerConnection.
Proof. setter RTCPeerConnection_eta iceConnectionState. Defined.
Definition set_localDescription :
  option RTCSessionDescriptionInit → RTCPeerConnection → RTCPeerConnection.
Proof. setter RTCPeerConnection_eta localDescription. Defined.
Definition set_remoteDescription :
  option RTCSessionDescriptionInit → RTCPeerConnection → RTCPeerConnection.
Proof. setter RTCPeerConnection_eta remoteDescription. Defined.
Definition set_remoteStreams :
  list StreamId → RTCPeerConnection → RTCPeerConnection.
Proof. setter RTCPeerConnection_eta remoteStreams. Defined.
Definition set_signalingState :
  SignalingState → RTCPeerConnection → RTCPeerConnection.
Proof. setter RTCPeerConnection_eta signalingState. Defined.
Definition set_localStreams :
  list StreamId → RTCPeerConnection → RTCPeerConnection.
Proof. setter RTCPeerConnection_eta localStreams. Defined.
Definition set_remoteCandidates :
  list RTCIceCandidate → RTCPeerConnection → RTCPeerConnection.
Proof. setter RTCPeerConnection_eta remoteCandidates. Defined.

(** ** The state monad of the methods *)

Definition M (A : Type) : Type := World → A * World.

Definition ret {A} (x : A) : M A := λ w, (x, w).
Definition bind {A B} (m : M A) (f : A → M B) : M B :=
  λ w, let r := m w in f r.1 r.2.

Declare Scope M_scope.
Delimit Scope M_scope with M.
Notation "x ← y ; z" := (bind y (λ x, z))
  (at level 20, y at level 100, z at level 200, only parsing) : M_scope.
Notation "x ;; z" := (bind x (λ _, z))
  (at level 100, z at level 200, only parsing, right associativity) : M_scope.
Open Scope M_scope.

(** The world a computation leaves behind. *)
Definition exec {A} (m : M A) (w : World) : World := (m w).2.

Definition skip : M unit := ret tt.
Definition when (b : bool) (m : M unit) : M unit := if b then m else skip.

(** [this f] reads the field [this.f]; [assign set_f v] is [this.f = v]. *)
Definition this {A} (f : MatrixCall → A) : M A := λ w, (f (call w), w).
Definition assign {A} (set : A → MatrixCall → MatrixCall) (v : A) : M unit :=
  λ w, (tt, set_call (set v (call w)) w).

(** [this.emit(...)]. *)
Definition emit (e : Emitted) : M unit :=
  λ w, (tt, set_emitted (emitted w ++ [e]) w).

(** [setTimeout(cb, delay)]: the handle is fresh. *)
Definition setTimeout (cb : TimerCallback) (delay : Z) : M TimerId :=
  λ w, let h := nextTimer w in
       (h, set_nextTimer (S h)
             (set_timers (timers w ++ [ {| timer_id := h; timer_delay := delay;
                                           timer_cb := cb |} ]) w)).

Definition clearTimeout (h : TimerId) : M unit :=
  λ w, (tt, set_timers (filter (λ t, timer_id t ≠ h) (timers w)) w).

(** Attaching [then]/[catch] handlers to a pending promise, or awaiting it. *)
Definition whenSettled (k : Continuation) : M unit :=
  λ w, (tt, set_inflight (inflight w ++ [k]) w).

(** [this.client.cancelPendingEvent(error.event)]. *)
Definition cancelPendingEvent : M unit :=
  λ w, (tt, set_cancelled (S (cancelled w)) w).

(** ** Methods of the class *)

(** Lines 1223-1227. *)
Definition setState (st : CallState) : M unit :=
  oldState ← this state;
  assign set_state st;;
  emit (EmitState st oldState).

(** Lines 978-983. *)
Definition callHasEnded : M bool :=
  st ← this state;
  ret (bool_decide (st = Ended)).

(** The fields [sendVoipEvent] adds to every content (lines 1239-1243). *)
Definition envelope (c : MatrixCall) : gmap string JVal :=
  {[ "version" := JNum VOIP_PROTO_VERSION;
     "call_id" := JStr (callId c);
     "party_id" := JStr (ourPartyId c) ]}.

(** Lines 1235-1245.  [Object.assign({}, content, envelope)]: the fields of
    the envelope win. *)
Definition sendVoipEvent (eventType : string) (content : gmap string JVal)
  : M unit :=
  λ w, (tt, set_sent (sent w ++ [ {| ev_room := roomId (call w);
                                     ev_type := eventType;
                                     ev_content := envelope (call w) ∪ content |} ])
              w).

(** [track.stop()] on every track of a stream. *)
Definition stopTrack (t : MediaStreamTrack) : MediaStreamTrack :=
  {| kind := kind t; enabled := enabled t; stopped := true |}.

Definition stopTracks (s : option StreamId) : M unit :=
  λ w, match s with
       | Some i => (tt, set_streams (alter (map stopTrack) i (streams w)) w)
       | None => (tt, w)
       end.

(** Lines 1295-1313. *)
Definition stopAllMedia : M unit :=
  l ← this localAVStream; stopTracks l;;
  s ← this screenSharingStream; stopTracks s;;
  r ← this remoteStream; stopTracks r.

(** [this.peerConn.close()]. *)
Definition closePeerConnection (pc : RTCPeerConnection) : RTCPeerConnection :=
  set_signalingState Closed pc.

(** Lines 1271-1293.  A timer handle is never falsy. *)
Definition terminate (party : CallParty) (reason : string) (shouldEmit : bool)
  : M unit :=
  ended ← callHasEnded;
  if ended then skip else
  t ← this inviteTimeout;
  match t with
  | Some h => clearTimeout h;; assign set_inviteTimeout None
  | None => skip
  end;;
  assign set_hangupParty (Some party);;
  assign set_hangupReason reason;;
  setState Ended;;
  stopAllMedia;;
  pc ← this peerConn;
  match pc with
  | Some c =>
      when (bool_decide (signalingState c ≠ Closed))
        (assign set_peerConn (Some (closePeerConnection c)))
  | None => skip
  end;;
  when shouldEmit (emit EmitHangup).

(** Lines 509-519.  The [content] that receives the reason is not the object
    that is sent. *)
Definition hangup (reason : CallErrorCode) (suppressEvent : bool) : M unit :=
  ended ← callHasEnded;
  if ended then skip else
  terminate Local (code_string reason) (negb suppressEvent);;
  let content : gmap string JVal :=
    if decide (reason ≠ UserHangup)
    then {[ "reason" := JStr (code_string reason) ]} else ∅ in
  sendVoipEvent "m.call.hangup" ∅.

(** Lines 1418-1422. *)
Definition partyIdMatches (party_id : option string) : M bool :=
  let msgPartyId := or_null party_id in
  o ← this opponentPartyId;
  ret (bool_decide (Some msgPartyId = o)).

(** Lines 1323-1342: the part of [sendCandidateQueue] that runs at once. *)
Definition sendCandidateQueue : M unit :=
  q ← this candidateSendQueue;
  if bool_decide (length q = 0) then skip else
  let cands := q in
  assign set_candidateSendQueue [];;
  n ← this candidateSendTries; assign set_candidateSendTries (S n);;
  let content : gmap string JVal := {[ "candidates" := JCandidates cands ]} in
  sendVoipEvent "m.call.candidates" content;;
  whenSettled (KCandidates cands).

(** Lines 1339-1342: the send succeeded. *)
Definition sendCandidateQueue_then : M unit :=
  assign set_candidateSendTries 0;;
  sendCandidateQueue.

(** Lines 1343-1368: the send failed; [cands] is the batch that was sent. *)
Definition sendCandidateQueue_catch (cands : list RTCIceCandidate) : M unit :=
  q ← this candidateSendQueue;
  assign set_candidateSendQueue (foldl (λ acc c, acc ++ [c]) q cands);;
  n ← this candidateSendTries;
  if bool_decide (5 < n) then assign set_candidateSendTries 0 else
  let delayMs := (500 * 2 ^ Z.of_nat n)%Z in
  assign set_candidateSendTries (S n);;
  _ ← setTimeout CbSendCandidateQueue delayMs;
  skip.

(** Lines 1247-1269. *)
Definition queueCandidate (content : RTCIceCandidate) : M unit :=
  q ← this candidateSendQueue;
  assign set_candidateSendQueue (q ++ [content]);;
  st ← this state;
  sentYet ← this inviteOrAnswerSent;
  if bool_decide (st = Ringing) || negb sentYet then skip else
  d ← this direction;
  let delay : Z := (if decide (d = Some Inbound) then 500 else 2000)%Z in
  n ← this candidateSendTries;
  if bool_decide (n = 0) then _ ← setTimeout CbSendCandidateQueue delay; skip
  else skip.

(** Lines 617-622. *)
Definition isLocalOnHold : M bool :=
  st ← this state;
  if bool_decide (st ≠ Connected) then ret false else
  let callOnHold := true in
  ret callOnHold.

(** [setTracksEnabled(stream.getAudioTracks(), true)] (lines 1425-1429). *)
Definition enableAudio (t : MediaStreamTrack) : MediaStreamTrack :=
  if decide (kind t = AudioTrack)
  then {| kind := kind t; enabled := true; stopped := stopped t |} else t.

Definition enableAudioTracks (s : StreamId) : M unit :=
  λ w, (tt, set_streams (alter (map enableAudio) s (streams w)) w).

(** [this.peerConn?.addStream(stream)]. *)
Definition addStream (s : StreamId) : M unit :=
  pc ← this peerConn;
  match pc with
  | Some c => assign set_peerConn (Some (set_localStreams (localStreams c ++ [s]) c))
  | None => skip
  end.

(** ** Inbound signalling messages

    The content of an event as the methods read it: a field that is absent,
    [undefined] or [null] is [None]. *)

Record InviteMsg := {
  inv_offer : option RTCSessionDescriptionInit;
  inv_version : option Z;
  inv_party_id : option string;
  inv_lifetime : Z;
  inv_localAge : option Z;     (* event.getLocalAge() *)
}.

Record AnswerMsg := {
  ans_answer : option RTCSessionDescriptionInit;
  ans_version : option Z;
  ans_party_id : option string;
}.

Record CandidatesMsg := {
  cnd_party_id : option string;
  cnd_candidates : option (list RTCIceCandidate);
}.

Record SelectAnswerMsg := {
  sel_party_id : option string;
  sel_selected_party_id : option string;
}.

Record NegotiateMsg := {
  neg_party_id : option string;
  neg_description : option RTCSessionDescriptionInit;
}.

Record HangupMsg := {
  hup_party_id : option string;
  hup_reason : option string;
}.

(** ** Methods that do not involve the WebRTC stack *)

(** Lines 443-449. *)
Definition initWithHangup : M unit := setState Ended.

(** Lines 424-435: the callback of the expiry timer of an invite. *)
Definition inviteExpired : M unit :=
  st ← this state;
  if bool_decide (st = Ringing) then
    assign set_hangupParty (Some Remote);;
    setState Ended;;
    stopAllMedia;;
    pc ← this peerConn;
    match pc with
    | Some c =>
        when (bool_decide (signalingState c ≠ Closed))
          (assign set_peerConn (Some (closePeerConnection c)))
    | None => skip
    end;;
    emit EmitHangup
  else skip.

(** Lines 526-542, for a call in the ringing state (the method throws in any
    other state).  [this.opponentVersion < 1] is false for [undefined]. *)
Definition reject : M unit :=
  v ← this opponentVersion;
  if match v with Some n => bool_decide (n < 1)%Z | None => false end
  then hangup UserHangup true else
  terminate Local (code_string UserHangup) true;;
  sendVoipEvent "m.call.reject" ∅.

(** Lines 770-789. *)
Definition gotLocalIceCandidate (c : option RTCIceCandidate) : M unit :=
  match c with
  | Some cand =>
      ended ← callHasEnded;
      if ended then skip else
      sentEnd ← this sentEndOfCandidates;
      if bool_decide (candidate cand ≠ "") || negb sentEnd then
        queueCandidate cand;;
        when (bool_decide (candidate cand = ""))
          (assign set_sentEndOfCandidates true)
      else skip
  | None => skip
  end.

(** Lines 791-812, after the stack moved the gathering state to [g]. *)
Definition onIceGatheringStateChange (g : IceGatheringState) : M unit :=
  pc ← this peerConn;
  match pc with
  | Some c => assign set_peerConn (Some (set_iceGatheringState g c))
  | None => skip
  end;;
  pc ← this peerConn;
  sentEnd ← this sentEndOfCandidates;
  if bool_decide (iceGatheringState <$> pc = Some GatheringComplete)
     && negb sentEnd then
    let c := {| candidate := ""; sdpMid := None; sdpMLineIndex := None |} in
    queueCandidate c;;
    assign set_sentEndOfCandidates true
  else skip.

(** [this.peerConn?.addIceCandidate(cand)] inside its [try] (lines 847-853). *)
Definition addIceCandidate (cand : RTCIceCandidate) : M unit :=
  pc ← this peerConn;
  match pc with
  | Some c =>
      assign set_peerConn
        (Some (set_remoteCandidates (remoteCandidates c ++ [cand]) c))
  | None => skip
  end.

(** Lines 834-854: the loop over the candidates of one message.  The
    [return] in its body leaves the method, and so the loop. *)
Fixpoint addRemoteCandidates (cands : list RTCIceCandidate) : M unit :=
  match cands with
  | [] => skip
  | cand :: rest =>
      if bool_decide (sdpMid cand = None)
         && bool_decide (sdpMLineIndex cand = None)
      then skip
      else addIceCandidate cand;; addRemoteCandidates rest
  end.

(** Lines 814-855. *)
Definition onRemoteIceCandidatesReceived (ev : CandidatesMsg) : M unit :=
  ended ← callHasEnded;
  if ended then skip else
  matches ← partyIdMatches (cnd_party_id ev);
  if negb matches then skip else
  match cnd_candidates ev with
  | None => skip
  | Some cands => addRemoteCandidates cands
  end.

(** Lines 908-930. *)
Definition onSelectAnswerReceived (ev : SelectAnswerMsg) : M unit :=
  d ← this direction;
  if bool_decide (d ≠ Some Inbound) then skip else
  match sel_selected_party_id ev with
  | None => skip
  | Some selectedPartyId =>
      ours ← this ourPartyId;
      when (bool_decide (selectedPartyId ≠ ours))
        (terminate Remote (code_string AnsweredElsewhere) true)
  end.

(** Lines 1185-1203.  [msg.reason || CallErrorCode.UserHangup]. *)
Definition onHangupReceived (msg : HangupMsg) : M unit :=
  matches ← partyIdMatches (hup_party_id msg);
  o ← this opponentPartyId;
  if negb matches && bool_decide (o ≠ None) then skip else
  terminate Remote
    (default (code_string UserHangup) (or_null (hup_reason msg))) true.

(** Lines 1205-1216. *)
Definition onRejectReceived : M unit :=
  st ← this state;
  if bool_decide (st = InviteSent)
  then terminate Remote (code_string UserHangup) true
  else skip.

(** Lines 1218-1221. *)
Definition onAnsweredElsewhere : M unit :=
  terminate Remote (code_string AnsweredElsewhere) true.

(** Lines 1098-1112, after the stack moved the ICE connection state to [s]. *)
Definition onIceConnectionStateChanged (s : IceConnectionState) : M unit :=
  pc ← this peerConn;
  match pc with
  | Some c => assign set_peerConn (Some (set_iceConnectionState s c))
  | None => skip
  end;;
  ended ← callHasEnded;
  if ended then skip else
  pc ← this peerConn;
  if bool_decide (iceConnectionState <$> pc = Some IceConnected)
  then setState Connected
  else if bool_decide (iceConnectionState <$> pc = Some IceFailedState)
  then hangup IceFailed false
  else skip.

(** Lines 1114-1121: the handler only logs; the stack moved the signalling
    state to [s]. *)
Definition onSignallingStateChanged (s : SignalingState) : M unit :=
  pc ← this peerConn;
  match pc with
  | Some c => assign set_peerConn (Some (set_signalingState s c))
  | None => skip
  end.

(** Lines 1078-1096 (a call that has no successor). *)
Definition getUserMediaFailed : M unit :=
  emit (EmitError NoUserMedia);;
  terminate Local (code_string NoUserMedia) false.

(** Lines 1064-1076. *)
Definition getLocalOfferFailed : M unit :=
  emit (EmitError LocalOfferFailed);;
  terminate Local (code_string LocalOfferFailed) false.

(** Lines 1038-1043: the callback of the invite timer. *)
Definition inviteTimedOut : M unit :=
  assign set_inviteTimeout None;;
  st ← this state;
  if bool_decide (st = InviteSent) then hangup InviteTimeout false else skip.

(** [this.peerConn?.localDescription]. *)
Definition localDescriptionOf (pc : option RTCPeerConnection)
  : option RTCSessionDescriptionInit :=
  match pc with Some c => localDescription c | None => None end.

(** Lines 680-697: the part of [sendAnswer] that runs at once.  The result is
    [false] when reading [localDescription.sdp] throws, which happens before
    any effect, for a connection that has no local description. *)
Definition sendAnswer : M bool :=
  pc ← this peerConn;
  match pc with
  | Some {| localDescription := None |} => ret false
  | _ =>
      let answerContent : gmap string JVal :=
        {[ "answer" :=
             JDescription
               (Some {| sdp := match localDescriptionOf pc with
                                | Some d => sdp d | None => None end;
                        sdpType := match localDescriptionOf pc with
                                   | Some d => sdpType d | None => None end |}) ]} in
      assign set_candidateSendQueue [];;
      sendVoipEvent "m.call.answer" answerContent;;
      whenSettled KAnswer;;
      ret true
  end.

(** Lines 698-703: the answer was sent. *)
Definition sendAnswer_then : M unit :=
  assign set_inviteOrAnswerSent true;;
  sendCandidateQueue.

(** Lines 704-717: the answer could not be sent. *)
Definition sendAnswer_catch (errName : string) : M unit :=
  setState Ringing;;
  cancelPendingEvent;;
  let code := if decide (errName = "UnknownDeviceError")
              then UnknownDevices else SendAnswer in
  emit (EmitError code).

(** Lines 754-762: the rest of [gotUserMediaForAnswer] after its 200 ms. *)
Definition sendAnswerAfterGathering : M unit :=
  ok ← sendAnswer;
  if ok then skip
  else terminate Local (code_string SetLocalDescription) true.

(** Lines 1011-1033: [gotLocalOffer] from its second check of the state up to
    the send; [finally] is what its caller [onNegotiationNeeded] runs when
    the method is over. *)
Definition gotLocalOffer_resume (finally : M unit) : M unit :=
  ended ← callHasEnded;
  if ended then finally else
  st ← this state;
  pc ← this peerConn;
  let keyName := if decide (st = CreateOffer) then "offer" else "description" in
  let eventType :=
    if decide (st = CreateOffer) then "m.call.invite" else "m.call.negotiate" in
  let content : gmap string JVal :=
    {[ keyName := JDescription (localDescriptionOf pc);
       "lifetime" := JNum CALL_TIMEOUT_MS ]} in
  assign set_candidateSendQueue [];;
  sendVoipEvent eventType content;;
  whenSettled KOffer.

(** Lines 1034-1044: the offer was sent. *)
Definition gotLocalOffer_sent : M unit :=
  sendCandidateQueue;;
  st ← this state;
  if bool_decide (st = CreateOffer) then
    assign set_inviteOrAnswerSent true;;
    setState InviteSent;;
    h ← setTimeout CbInviteTimeout CALL_TIMEOUT_MS;
    assign set_inviteTimeout (Some h)
  else skip.

(** Lines 1045-1061: the offer could not be sent. *)
Definition gotLocalOffer_sendFailed (errName : string) : M unit :=
  cancelPendingEvent;;
  st ← this state;
  let code := if decide (errName = "UnknownDeviceError") then UnknownDevices
              else if decide (st = CreateOffer) then SendInvite
              else SignallingFailed in
  emit (EmitError code);;
  terminate Local (code_string code) false.

(** Lines 1142-1144: the [finally] of [onNegotiationNeeded]. *)
Definition offerDone : M unit := assign set_makingOffer false.

(** ** Methods that drive the WebRTC stack *)

Section Stack.
Context {rtc : WebRTC}.

(** Lines 377-437.  [inv_localAge] is falsy when it is absent or zero. *)
Definition initWithInvite (msg : InviteMsg) : M unit :=
  assign set_peerConn (Some newPeerConnection);;
  match rtc_setRemoteDescription newPeerConnection (inv_offer msg) with
  | None => terminate Local (code_string SetRemoteDescription) false
  | Some c =>
      assign set_peerConn (Some c);;
      match remoteStreams c with
      | [] => terminate Local (code_string SetRemoteDescription) false
      | s :: _ =>
          assign set_remoteStream (Some s);;
          tracks ← (λ w, (default [] (streams w !! s), w));
          assign set_type
            (Some (if existsb (λ t, bool_decide (kind t = VideoTrack)) tracks
                   then Video else Voice));;
          setState Ringing;;
          assign set_direction (Some Inbound);;
          assign set_opponentVersion (inv_version msg);;
          assign set_opponentPartyId (Some (or_null (inv_party_id msg)));;
          match inv_localAge msg with
          | Some age =>
              if bool_decide (age ≠ 0%Z) then
                let timeoutDuration := (inv_lifetime msg - age)%Z in
                _ ← setTimeout CbInviteExpired timeoutDuration; skip
              else skip
          | None => skip
          end
      end
  end.

(** Lines 720-764, up to the 200 ms wait. *)
Definition gotUserMediaForAnswer (stream : StreamId) : M unit :=
  ended ← callHasEnded;
  if ended then skip else
  assign set_localAVStream (Some stream);;
  enableAudioTracks stream;;
  addStream stream;;
  setState CreateAnswer;;
  pc ← this peerConn;
  match pc with
  | None =>
      setState Connecting;;
      _ ← setTimeout CbSendAnswer 200; skip
  | Some c =>
      match rtc_createAnswer c with
      | None => terminate Local (code_string CreateAnswerFailed) true
      | Some myAnswer =>
          match rtc_setLocalDescription c (Some myAnswer) with
          | None => terminate Local (code_string SetLocalDescription) true
          | Some c' =>
              assign set_peerConn (Some c');;
              setState Connecting;;
              _ ← setTimeout CbSendAnswer 200; skip
          end
      end
  end.

(** Lines 454-480, up to the request for the media. *)
Definition answer : M unit :=
  sentYet ← this inviteOrAnswerSent;
  if (sentYet : bool) then skip else
  l ← this localAVStream;
  waiting ← this waitForLocalAVStream;
  match l with
  | None =>
      if (waiting : bool) then setState WaitLocalMedia
      else
        setState WaitLocalMedia;;
        assign set_waitForLocalAVStream true;;
        whenSettled KMediaForAnswer
  | Some s => gotUserMediaForAnswer s
  end.

(** Lines 468-470: the media arrived. *)
Definition answer_gotMedia (stream : StreamId) : M unit :=
  assign set_waitForLocalAVStream false;;
  gotUserMediaForAnswer stream.

(** Lines 861-906. *)
Definition onAnswerReceived (ev : AnswerMsg) : M unit :=
  ended ← callHasEnded;
  if ended then skip else
  o ← this opponentPartyId;
  if bool_decide (o ≠ None) then skip else
  assign set_opponentVersion (ans_version ev);;
  assign set_opponentPartyId (Some (or_null (ans_party_id ev)));;
  setState Connecting;;
  pc ← this peerConn;
  let selectAnswer : M unit :=
    o ← this opponentPartyId;
    match o with
    | Some None => skip
    | Some (Some p) =>
        sendVoipEvent "m.call.select_answer" {[ "selected_party_id" := JStr p ]}
    | None => sendVoipEvent "m.call.select_answer" ∅
    end in
  match pc with
  | None => selectAnswer
  | Some c =>
      match rtc_setRemoteDescription c (ans_answer ev) with
      | None => terminate Local (code_string SetRemoteDescription) false
      | Some c' => assign set_peerConn (Some c');; selectAnswer
      end
  end.

(** Lines 957-970: the [try] block of [onNegotiateReceived]; an exception
    in it is caught and logged. *)
Definition negotiate (description : RTCSessionDescriptionInit) : M unit :=
  pc ← this peerConn;
  let isOffer := bool_decide (sdpType description = Some "offer") in
  match pc with
  | None =>
      when isOffer
        (sendVoipEvent "m.call.negotiate" {[ "description" := JDescription None ]})
  | Some c =>
      match rtc_setRemoteDescription c (Some description) with
      | None => skip
      | Some c1 =>
          assign set_peerConn (Some c1);;
          if isOffer then
            match rtc_createAnswer c1 with
            | None => skip
            | Some localDesc =>
                match rtc_setLocalDescription c1 (Some localDesc) with
                | None => skip
                | Some c2 =>
                    assign set_peerConn (Some c2);;
                    sendVoipEvent "m.call.negotiate"
                      {[ "description" := JDescription (localDescription c2) ]}
                end
            end
          else skip
      end
  end.

(** Lines 932-976. *)
Definition onNegotiateReceived (ev : NegotiateMsg) : M unit :=
  match neg_description ev with
  | None => skip
  | Some description =>
      if negb (truthy (sdp description)) || negb (truthy (sdpType description))
      then skip else
      d ← this direction;
      let polite := bool_decide (d = Some Inbound) in
      making ← this makingOffer;
      pc ← this peerConn;
      let offerCollision :=
        bool_decide (sdpType description = Some "offer")
        && (making || bool_decide (signalingState <$> pc ≠ Some Stable)) in
      assign set_ignoreOffer (negb polite && offerCollision);;
      ignoring ← this ignoreOffer;
      if (ignoring : bool) then skip else
      prevOnHold ← isLocalOnHold;
      negotiate description;;
      nowOnHold ← isLocalOnHold;
      when (bool_decide (prevOnHold ≠ nowOnHold)) (emit (EmitHoldUnhold nowOnHold))
  end.

(** Lines 985-1009: [gotLocalOffer] up to the wait for the candidates. *)
Definition gotLocalOffer (description : option RTCSessionDescriptionInit)
    (finally : M unit) : M unit :=
  ended ← callHasEnded;
  if ended then finally else
  pc ← this peerConn;
  match (λ c, rtc_setLocalDescription c description) <$> pc with
  | Some None =>
      terminate Local (code_string SetLocalDescription) true;; finally
  | r =>
      match r with
      | Some (Some c') => assign set_peerConn (Some c')
      | _ => skip
      end;;
      pc ← this peerConn;
      if bool_decide (iceGatheringState <$> pc = Some Gathering)
      then _ ← setTimeout CbOfferGathered 200; skip
      else gotLocalOffer_resume finally
  end.

(** Lines 1123-1145. *)
Definition onNegotiationNeeded : M unit :=
  st ← this state;
  v ← this opponentVersion;
  if bool_decide (st ≠ CreateOffer) && bool_decide (v = Some 0%Z) then skip else
  assign set_makingOffer true;;
  pc ← this peerConn;
  match pc with
  | None => gotLocalOffer None offerDone
  | Some c =>
      match rtc_createOffer c with
      | None => getLocalOfferFailed;; offerDone
      | Some myOffer => gotLocalOffer (Some myOffer) offerDone
      end
  end.

(** Lines 640-678 (a call that has no successor). *)
Definition gotUserMediaForInvite (stream : StreamId) : M unit :=
  ended ← callHasEnded;
  if ended then skip else
  setState CreateOffer;;
  assign set_localAVStream (Some stream);;
  enableAudioTracks stream;;
  assign set_peerConn (Some newPeerConnection);;
  addStream stream.

(** Lines 315-320 and 1372-1397, up to the request for the media; an error
    listener is attached. *)
Definition placeVoiceCall : M unit :=
  setState WaitLocalMedia;;
  assign set_direction (Some Outbound);;
  whenSettled KMediaForInvite;;
  assign set_type (Some Voice).
End Stack.

(** ** Events and the step function *)

(** How a pending promise is settled. *)
Inductive Outcome :=
| Fulfilled (stream : option StreamId)
| Rejected (errName : string).

Inductive Event :=
(* calls of the owner *)
| PlaceVoiceCall
| InitWithInvite (msg : InviteMsg)
| InitWithHangup
| Answer
| Hangup (reason : CallErrorCode) (suppressEvent : bool)
| Reject
(* inbound signalling *)
| AnswerReceived (ev : AnswerMsg)
| CandidatesReceived (ev : CandidatesMsg)
| SelectAnswerReceived (ev : SelectAnswerMsg)
| NegotiateReceived (ev : NegotiateMsg)
| HangupReceived (msg : HangupMsg)
| RejectReceived
| AnsweredElsewhereReceived
(* callbacks of the peer connection *)
| LocalIceCandidate (c : option RTCIceCandidate)
| IceGatheringStateChange (g : IceGatheringState)
| IceConnectionStateChanged (s : IceConnectionState)
| SignallingStateChanged (s : SignalingState)
| NegotiationNeeded
(* deliveries of the environment *)
| TimerFires (h : TimerId)
| Settled (i : nat) (o : Outcome).

Section Step.
Context {rtc : WebRTC}.

(** The callback of a timer. *)
Definition fire (cb : TimerCallback) : M unit :=
  match cb with
  | CbInviteExpired => inviteExpired
  | CbSendAnswer => sendAnswerAfterGathering
  | CbOfferGathered => gotLocalOffer_resume offerDone
  | CbInviteTimeout => inviteTimedOut
  | CbSendCandidateQueue => sendCandidateQueue
  end.

(** The code that waits for a promise, by its outcome. *)
Definition settle (k : Continuation) (o : Outcome) : option (M unit) :=
  match k, o with
  | KAnswer, Fulfilled _ => Some sendAnswer_then
  | KAnswer, Rejected e => Some (sendAnswer_catch e)
  | KOffer, Fulfilled _ => Some (gotLocalOffer_sent;; offerDone)
  | KOffer, Rejected e => Some (gotLocalOffer_sendFailed e;; offerDone)
  | KCandidates _, Fulfilled _ => Some sendCandidateQueue_then
  | KCandidates cands, Rejected _ => Some (sendCandidateQueue_catch cands)
  | KMediaForAnswer, Fulfilled (Some s) => Some (answer_gotMedia s)
  | KMediaForAnswer, Fulfilled None => None
  | KMediaForAnswer, Rejected _ => Some getUserMediaFailed
  | KMediaForInvite, Fulfilled (Some s) => Some (gotUserMediaForInvite s)
  | KMediaForInvite, Fulfilled None => Some getUserMediaFailed
  | KMediaForInvite, Rejected _ => Some getUserMediaFailed
  end.

(** One event; [None] when the event cannot happen in this world: a timer
    that is not pending, a promise that is not pending, a [reject] that
    throws. *)
Definition step (e : Event) (w : World) : option World :=
  match e with
  | PlaceVoiceCall => Some (exec placeVoiceCall w)
  | InitWithInvite msg => Some (exec (initWithInvite msg) w)
  | InitWithHangup => Some (exec initWithHangup w)
  | Answer => Some (exec answer w)
  | Hangup reason suppressEvent => Some (exec (hangup reason suppressEvent) w)
  | Reject =>
      if decide (state (call w) = Ringing) then Some (exec reject w) else None
  | AnswerReceived ev => Some (exec (onAnswerReceived ev) w)
  | CandidatesReceived ev => Some (exec (onRemoteIceCandidatesReceived ev) w)
  | SelectAnswerReceived ev => Some (exec (onSelectAnswerReceived ev) w)
  | NegotiateReceived ev => Some (exec (onNegotiateReceived ev) w)
  | HangupReceived msg => Some (exec (onHangupReceived msg) w)
  | RejectReceived => Some (exec onRejectReceived w)
  | AnsweredElsewhereReceived => Some (exec onAnsweredElsewhere w)
  | LocalIceCandidate c => Some (exec (gotLocalIceCandidate c) w)
  | IceGatheringStateChange g => Some (exec (onIceGatheringStateChange g) w)
  | IceConnectionStateChanged s => Some (exec (onIceConnectionStateChanged s) w)
  | SignallingStateChanged s => Some (exec (onSignallingStateChanged s) w)
  | NegotiationNeeded => Some (exec onNegotiationNeeded w)
  | TimerFires h =>
      match find (λ t, bool_decide (timer_id t = h)) (timers w) with
      | Some t => Some (exec (clearTimeout h;; fire (timer_cb t)) w)
      | None => None
      end
  | Settled i o =>
      match inflight w !! i with
      | Some k =>
          match settle k o with
          | Some m => Some (exec m (set_inflight (delete i (inflight w)) w))
          | None => None
          end
      | None => None
      end
  end.

(** A sequence of events, oldest first. *)
Fixpoint run (es : list Event) (w : World) : option World :=
  match es with
  | [] => Some w
  | e :: es' =>
      match step e w with
      | Some w' => run es' w'
      | None => None
      end
  end.
End Step.

(** A call just constructed, in a world whose media streams are [media]. *)
Definition initialWorld (c : MatrixCall)
    (media : gmap StreamId (list MediaStreamTrack)) : World :=
  {| call := c; sent := []; inflight := []; cancelled := 0; emitted := [];
     timers := []; nextTimer := 1; streams := media |}.

(** A stack that accepts every description: an offer moves the signalling
    state away from stable, an answer moves it back, and the remote side
    offers the stream 0. *)
Definition afterDescription (local : bool)
    (d : option RTCSessionDescriptionInit) : SignalingState :=
  match d with
  | Some {| sdpType := Some "offer" |} =>
      if local then HaveLocalOffer else HaveRemoteOffer
  | _ => Stable
  end.

Definition acceptingStack : WebRTC :=
  {| rtc_setRemoteDescription c d :=
       Some (set_remoteStreams [0]
               (set_remoteDescription d
                  (set_signalingState (afterDescription false d) c)));
     rtc_setLocalDescription c d :=
       Some (set_localDescription d
               (set_signalingState (afterDescription true d) c));
     rtc_createAnswer c := Some {| sdp := Some "a"; sdpType := Some "answer" |};
     rtc_createOffer c := Some {| sdp := Some "o"; sdpType := Some "offer" |} |}.

(** ** Vocabulary of the statements *)

(** [t] is a pending invite timer of [w]. *)
Definition armed (w : World) (t : Timer) : Prop :=
  t ∈ timers w ∧ timer_cb t = CbInviteTimeout.

(** A computation that arms no invite timer. *)
Definition quiet {A} (m : M A) : Prop :=
  ∀ w t, armed (m w).2 t → armed w t.

(** A candidate that has an sdpMid or an sdpMLineIndex. *)
Definition addressed (cand : RTCIceCandidate) : bool :=
  negb (bool_decide (sdpMid cand = None)
        && bool_decide (sdpMLineIndex cand = None)).

(** The candidates in front of the first one that has neither. *)
Fixpoint beforeUnaddressed (cands : list RTCIceCandidate)
  : list RTCIceCandidate :=
  match cands with
  | [] => []
  | cand :: rest =>
      if addressed cand then cand :: beforeUnaddressed rest else []
  end.

(** ** Concrete calls

    The calls the examples run on are built from a fresh call by the events
    that lead to them, on the stack that accepts everything. *)

Definition after (es : list Event) (w : World) : World :=
  default w (run (rtc := acceptingStack) es w).

Definition cand (s : string) : RTCIceCandidate :=
  {| candidate := s; sdpMid := Some "0"; sdpMLineIndex := Some 0%Z |}.

Definition unaddressed (s : string) : RTCIceCandidate :=
  {| candidate := s; sdpMid := None; sdpMLineIndex := None |}.

Definition micTrack : MediaStreamTrack :=
  {| kind := AudioTrack; enabled := false; stopped := false |}.

(** An outbound call of device D1: its offer is handed to the transport
    (the send is pending and [makingOffer] is set), then the invite is sent,
    then device D2 answers. *)
Definition outboundFresh : World :=
  initialWorld (newMatrixCall "!r" "c1" "D1") {[ 7 := [micTrack] ]}.

Definition offerInFlight : World :=
  after [ PlaceVoiceCall; Settled 0 (Fulfilled (Some 7)); NegotiationNeeded ]
    outboundFresh.

Definition invited : World :=
  after [ Settled 0 (Fulfilled None) ] offerInFlight.

Definition answered : World :=
  after [ AnswerReceived
            {| ans_answer := Some {| sdp := Some "a"; sdpType := Some "answer" |};
               ans_version := Some 0%Z; ans_party_id := Some "D2" |} ]
    invited.

Definition inviteTimer : Timer :=
  {| timer_id := 1; timer_delay := 60000; timer_cb := CbInviteTimeout |}.

(** Two candidates are flushed, a third is enqueued while the flush is in
    flight, and the flush fails. *)
Definition flushFailedInFlight : option World :=
  run (rtc := acceptingStack)
    [ LocalIceCandidate (Some (cand "c1")); LocalIceCandidate (Some (cand "c2"));
      TimerFires 2; LocalIceCandidate (Some (cand "c3"));
      Settled 0 (Rejected "Error") ]
    invited.

Definition queuedC3 : World :=
  initialWorld
    (set_candidateSendQueue [cand "c3"] (newMatrixCall "!r" "c1" "D1")) ∅.

Definition triedTwice : World :=
  initialWorld (set_candidateSendTries 2 (newMatrixCall "!r" "c1" "D1")) ∅.
Definition triedSeven : World :=
  initialWorld (set_candidateSendTries 7 (newMatrixCall "!r" "c1" "D1")) ∅.

(** An inbound call of device D2 that rings on device D1. *)
Definition invite : InviteMsg :=
  {| inv_offer := Some {| sdp := Some "o"; sdpType := Some "offer" |};
     inv_version := Some 0%Z; inv_party_id := Some "D2";
     inv_lifetime := 60000; inv_localAge := Some 1000%Z |}.

Definition inboundFresh : World :=
  initialWorld (newMatrixCall "!r" "c9" "D1")
    {[ 0 := [micTrack]; 7 := [micTrack] ]}.

Definition inboundRinging : World :=
  after [ InitWithInvite invite ] inboundFresh.

Definition collidingOffer : NegotiateMsg :=
  {| neg_party_id := Some "D2";
     neg_description := Some {| sdp := Some "o2"; sdpType := Some "offer" |} |}.

(** ** Vocabulary of the invariants *)

(** What identifies a call on the wire. *)
Definition ids (c : MatrixCall) : string * string * string :=
  (roomId c, callId c, ourPartyId c).

(** [m] goes to the room of [c] and carries the envelope of [c]. *)
Definition stamped (c : MatrixCall) (m : VoipEvent) : Prop :=
  ev_room m = roomId c
  ∧ ev_content m !! "version" = Some (JNum VOIP_PROTO_VERSION)
  ∧ ev_content m !! "call_id" = Some (JStr (callId c))
  ∧ ev_content m !! "party_id" = Some (JStr (ourPartyId c)).

(** The state that a sequence of emitted events leads to from state [s],
    when every state event names the state before it as its old state. *)
Fixpoint chain (s : CallState) (es : list Emitted) : option CallState :=
  match es with
  | [] => Some s
  | EmitState new old :: es' =>
      if decide (old = s) then chain new es' else None
  | _ :: es' => chain s es'
  end.

(** [w'] continues [w]: the identity of the call is the same, the messages
    handed to the transport since [w] carry its envelope, and the events
    emitted since [w] lead from the state of [w] to the state of [w']. *)
Definition extends (w w' : World) : Prop :=
  ids (call w') = ids (call w)
  ∧ (∃ msgs, sent w' = sent w ++ msgs ∧ Forall (stamped (call w)) msgs)
  ∧ (∃ evs, emitted w' = emitted w ++ evs
            ∧ chain (state (call w)) evs = Some (state (call w'))).

Definition sound {A} (m : M A) : Prop := ∀ w, extends w (m w).2.

(** The messages that carry a session description. *)
Definition describingType (eventType : string) : bool :=
  bool_decide (eventType ∈ ["m.call.invite"; "m.call.answer"; "m.call.negotiate"]).

Definition describesSession (m : VoipEvent) : bool :=
  describingType (ev_type m).

Definition carriesCandidates (m : VoipEvent) : bool :=
  bool_decide (ev_type m = "m.call.candidates").

(** In [l], every candidates message has a description in front of it;
    [seen] tells whether one was sent before [l]. *)
Fixpoint candidatesFollow (seen : bool) (l : list VoipEvent) : bool :=
  match l with
  | [] => true
  | m :: l' =>
      (if carriesCandidates m then seen else true)
      && candidatesFollow (seen || describesSession m) l'
  end.

(** The promises of the media devices. *)
Definition mediaRequest (k : Continuation) : bool :=
  match k with
  | KMediaForAnswer | KMediaForInvite => true
  | _ => false
  end.

(** The candidates are held back: they follow a description, and as long as
    no description was sent, nothing is under way that would send them. *)
Definition holding (w : World) : Prop :=
  candidatesFollow false (sent w) = true
  ∧ (existsb describesSession (sent w) = false →
     inviteOrAnswerSent (call w) = false
     ∧ Forall (λ t, timer_cb t ≠ CbSendCandidateQueue) (timers w)
     ∧ Forall (λ k, mediaRequest k = true) (inflight w)).

Definition tame {A} (m : M A) : Prop := ∀ w, holding w → holding (m w).2.

(** [P] is a fact about the call that a computation does not undo. *)
Definition preserves (P : MatrixCall → Prop) {A} (m : M A) : Prop :=
  ∀ w, P (call w) → P (call (m w).2).

(** An outbound call whose first candidate has been flushed. *)
Definition candidatesFlushed : World :=
  after [ LocalIceCandidate (Some (cand "c1")); TimerFires 2 ] invited.

(** The call of [invited] after the stack has finished gathering. *)
Definition markerQueued : World :=
  after [ IceGatheringStateChange GatheringComplete ] invited.

(** The store after [track.stop()] on every track of the stream [s], if the
    call has such a stream. *)
Definition stopStream (s : option StreamId)
    (store : gmap StreamId (list MediaStreamTrack))
  : gmap StreamId (list MediaStreamTrack) :=
  match s with
  | Some i => alter (map stopTrack) i store
  | None => store
  end.

(** The streams a call owns. *)
Definition owned (c : MatrixCall) (s : StreamId) : Prop :=
  localAVStream c = Some s ∨ screenSharingStream c = Some s
  ∨ remoteStream c = Some s.

(** An inbound call that the partner has hung up. *)
Definition hungUp : World :=
  after [ HangupReceived {| hup_party_id := Some "D2"; hup_reason := None |} ]
    inboundRinging.

(** A stack that rejects every remote description. *)
Definition refusingStack : WebRTC :=
  {| rtc_setRemoteDescription c d := None;
     rtc_setLocalDescription c d := Some (set_localDescription d c);
     rtc_createAnswer c := Some {| sdp := Some "a"; sdpType := Some "answer" |};
     rtc_createOffer c := Some {| sdp := Some "o"; sdpType := Some "offer" |} |}.

(** What ends a call without a word to the partner: the error is emitted,
    the call ends for the local party with the code as its reason, nothing
    is sent and no hangup event is emitted. *)
Definition endsSilently (code : CallErrorCode) (w w' : World) : Prop :=
  state (call w') = Ended
  ∧ hangupParty (call w') = Some Local
  ∧ hangupReason (call w') = code_string code
  ∧ sent w' = sent w
  ∧ emitted w' = (emitted w ++ [EmitError code])
                 ++ [EmitState Ended (state (call w))].


(** What the end of a call looks like: the party and the reason are
    recorded, the invite timer is gone, the state event is emitted and,
    unless it is suppressed, the hangup event after it. *)
Definition endedBy (party : CallParty) (reason : string) (shouldEmit : bool)
    (w w' : World) : Prop :=
  state (call w') = Ended
  ∧ hangupParty (call w') = Some party
  ∧ hangupReason (call w') = reason
  ∧ inviteTimeout (call w') = None
  ∧ emitted w' = (if shouldEmit
                  then (emitted w ++ [EmitState Ended (state (call w))])
                       ++ [EmitHangup]
                  else emitted w ++ [EmitState Ended (state (call w))]).

(** ** Mute and hold *)

Definition set_remoteOnHold : bool → MatrixCall → MatrixCall.
Proof. setter MatrixCall_eta remoteOnHold. Defined.
Definition set_micMuted : bool → MatrixCall → MatrixCall.
Proof. setter MatrixCall_eta micMuted. Defined.
Definition set_vidMuted : bool → MatrixCall → MatrixCall.
Proof. setter MatrixCall_eta vidMuted. Defined.

(** Lines 1425-1429, on the tracks of kind [k] of the stream [s]
    ([getAudioTracks()], [getVideoTracks()]). *)
Definition setTrackEnabled (k : TrackKind) (e : bool) (t : MediaStreamTrack)
  : MediaStreamTrack :=
  if decide (kind t = k)
  then {| kind := kind t; enabled := e; stopped := stopped t |} else t.

Definition setTracksEnabled (s : StreamId) (k : TrackKind) (e : bool)
  : M unit :=
  λ w, (tt, set_streams (alter (map (setTrackEnabled k e)) s (streams w)) w).

(** Lines 624-634. *)
Definition updateMuteStatus : M unit :=
  l ← this localAVStream;
  match l with
  | None => skip
  | Some s =>
      mic ← this micMuted; hold ← this remoteOnHold;
      let micShouldBeMuted := mic || hold in
      setTracksEnabled s AudioTrack (negb micShouldBeMuted);;
      vid ← this vidMuted; hold ← this remoteOnHold;
      let vidShouldBeMuted := vid || hold in
      setTracksEnabled s VideoTrack (negb vidShouldBeMuted)
  end.

(** Lines 548-551. *)
Definition setLocalVideoMuted (muted : bool) : M unit :=
  assign set_vidMuted muted;; updateMuteStatus.

(** Lines 562-564. *)
Definition isLocalVideoMuted : M bool := this vidMuted.

(** Lines 570-573. *)
Definition setMicrophoneMuted (muted : bool) : M unit :=
  assign set_micMuted muted;; updateMuteStatus.

(** Lines 584-586. *)
Definition isMicrophoneMuted : M bool := this micMuted.

(** Lines 592-594. *)
Definition isRemoteOnHold : M bool := this remoteOnHold.

(** Lines 596-607. *)
Definition setRemoteOnHold (onHold : bool) : M unit :=
  h ← isRemoteOnHold;
  if bool_decide (h = onHold) then skip else
  assign set_remoteOnHold onHold;;
  updateMuteStatus.

(** A track as the mute flags and the hold flag of the call want it. *)
Definition muteStatus (c : MatrixCall) (t : MediaStreamTrack)
  : MediaStreamTrack :=
  {| kind := kind t;
     enabled := match kind t with
                | AudioTrack => negb (micMuted c || remoteOnHold c)
                | VideoTrack => negb (vidMuted c || remoteOnHold c)
                end;
     stopped := stopped t |}.

(** The audio tracks of the stream [s] are enabled. *)
Definition audible (s : StreamId)
    (store : gmap StreamId (list MediaStreamTrack)) : Prop :=
  ∃ tracks, store !! s = Some tracks
    ∧ Forall (λ t, kind t = AudioTrack → enabled t = true) tracks.

(** The call of [invited] with its microphone muted. *)
Definition mutedCall : World := exec (setMicrophoneMuted true) invited.

(** A fresh call whose microphone is muted before the media is there. *)
Definition mutedEarly : World :=
  after [ PlaceVoiceCall ] (exec (setMicrophoneMuted true) outboundFresh).

(** The inbound call of [inboundRinging], answered, with its media, before
    the answer is sent. *)
Definition answering : World :=
  after [ Answer; Settled 0 (Fulfilled (Some 7)) ] inboundRinging.

(** * Verification *)

(** ** Running a computation *)

Lemma bind_apply {A B} (m : M A) (f : A → M B) w :
  bind m f w = f (m w).1 (m w).2.
Proof. reflexivity. Qed.

Lemma exec_bind {A B} (m : M A) (f : A → M B) w :
  exec (bind m f) w = exec (f (m w).1) (m w).2.
Proof. reflexivity. Qed.

Lemma exec_skip w : exec skip w = w.
Proof. reflexivity. Qed.

(** Case analysis on everything a method branches on. *)
Ltac destruct_world w :=
  let c := fresh "c" in destruct w as [c ? ? ? ? ? ? ?]; destruct c.

Ltac destruct_conn pc :=
  destruct pc as [[[] ? ? ? ? ? ? ?]|].

(** The concrete calls are reached by their events. *)
Example concrete_calls_reached :
  run (rtc := acceptingStack)
    [ PlaceVoiceCall; Settled 0 (Fulfilled (Some 7)); NegotiationNeeded;
      Settled 0 (Fulfilled None);
      AnswerReceived
        {| ans_answer := Some {| sdp := Some "a"; sdpType := Some "answer" |};
           ans_version := Some 0%Z; ans_party_id := Some "D2" |} ]
    outboundFresh = Some answered
  ∧ run (rtc := acceptingStack) [ InitWithInvite invite ] inboundFresh
    = Some inboundRinging
  ∧ (state (call offerInFlight), makingOffer (call offerInFlight),
     inflight offerInFlight) = (CreateOffer, true, [KOffer])
  ∧ (state (call invited), inviteOrAnswerSent (call invited))
    = (InviteSent, true)
  ∧ (state (call inboundRinging), direction (call inboundRinging),
     opponentPartyId (call inboundRinging))
    = (Ringing, Some Inbound, Some (Some "D2")).
Proof. vm_compute. done. Qed.

(** ** Termination of a call *)

Lemma terminate_ended party reason shouldEmit w :
  state (call w) = Ended → exec (terminate party reason shouldEmit) w = w.
Proof.
  intros H. unfold terminate. rewrite exec_bind.
  unfold callHasEnded at 1 2. rewrite !bind_apply. cbn [this ret fst snd].
  rewrite H. reflexivity.
Qed.

Lemma terminate_state party reason shouldEmit w :
  state (call (exec (terminate party reason shouldEmit) w)) = Ended.
Proof.
  destruct_world w.
  destruct state0, inviteTimeout0, shouldEmit, localAVStream0,
    screenSharingStream0, remoteStream0; destruct_conn peerConn0;
    lazy; reflexivity.
Qed.

Lemma hangup_ended reason suppressEvent w :
  state (call w) = Ended → exec (hangup reason suppressEvent) w = w.
Proof.
  intros H. unfold hangup. rewrite exec_bind.
  unfold callHasEnded. rewrite !bind_apply. cbn [this ret fst snd].
  rewrite H. reflexivity.
Qed.

Lemma hangup_state reason suppressEvent w :
  state (call (exec (hangup reason suppressEvent) w)) = Ended.
Proof.
  destruct_world w.
  destruct state0, inviteTimeout0, suppressEvent, localAVStream0,
    screenSharingStream0, remoteStream0; destruct_conn peerConn0;
    lazy; reflexivity.
Qed.

(** C9.  Calling [hangup] a second time changes nothing at all: the world
    after the two calls, which holds the state of the call, the tracks of its
    media streams and the messages handed to the transport, is the world
    after the first call. *)
Theorem hangup_idempotent reason1 suppress1 reason2 suppress2 w :
  exec (hangup reason2 suppress2) (exec (hangup reason1 suppress1) w)
  = exec (hangup reason1 suppress1) w.
Proof. apply hangup_ended, hangup_state. Qed.

(** What [terminate] does to a call that has not ended. *)
Lemma terminate_live party reason shouldEmit w :
  state (call w) ≠ Ended →
  let w' := exec (terminate party reason shouldEmit) w in
  hangupParty (call w') = Some party
  ∧ hangupReason (call w') = reason
  ∧ inviteTimeout (call w') = None
  ∧ timers w' = match inviteTimeout (call w) with
                | Some h => filter (λ t, timer_id t ≠ h) (timers w)
                | None => timers w
                end.
Proof.
  destruct_world w. cbn [call state]. intros H.
  destruct state0; try done; destruct inviteTimeout0, shouldEmit,
    localAVStream0, screenSharingStream0, remoteStream0; destruct_conn peerConn0;
    repeat split; reflexivity.
Qed.

(** What [terminate] leaves alone. *)
Lemma terminate_frame party reason shouldEmit w :
  let w' := exec (terminate party reason shouldEmit) w in
  sent w' = sent w ∧ inflight w' = inflight w ∧ cancelled w' = cancelled w
  ∧ nextTimer w' = nextTimer w
  ∧ roomId (call w') = roomId (call w) ∧ callId (call w') = callId (call w)
  ∧ ourPartyId (call w') = ourPartyId (call w)
  ∧ direction (call w') = direction (call w)
  ∧ opponentPartyId (call w') = opponentPartyId (call w)
  ∧ candidateSendQueue (call w') = candidateSendQueue (call w)
  ∧ candidateSendTries (call w') = candidateSendTries (call w).
Proof.
  destruct_world w.
  destruct state0, inviteTimeout0, shouldEmit, localAVStream0,
    screenSharingStream0, remoteStream0; destruct_conn peerConn0;
    lazy; repeat split; reflexivity.
Qed.

Lemma envelope_terminate party reason shouldEmit w :
  envelope (call (exec (terminate party reason shouldEmit) w))
  = envelope (call w).
Proof.
  destruct (terminate_frame party reason shouldEmit w)
    as (_ & _ & _ & _ & _ & Hc & Hp & _).
  unfold envelope. cbv zeta in Hc, Hp. by rewrite Hc, Hp.
Qed.

(** [hangup] on a call that has not ended. *)
Lemma hangup_live reason suppressEvent w :
  state (call w) ≠ Ended →
  exec (hangup reason suppressEvent) w
  = exec (sendVoipEvent "m.call.hangup" ∅)
      (exec (terminate Local (code_string reason) (negb suppressEvent)) w).
Proof.
  intros H. unfold hangup. rewrite exec_bind.
  unfold callHasEnded. rewrite !bind_apply. cbn [this ret fst snd].
  rewrite bool_decide_eq_false_2 by done. reflexivity.
Qed.

(** The messages [hangup] hands to the transport. *)
Lemma hangup_sent reason suppressEvent w :
  sent (exec (hangup reason suppressEvent) w)
  = sent w ++
    (if decide (state (call w) = Ended) then []
     else [ {| ev_room := roomId (call w); ev_type := "m.call.hangup";
               ev_content := envelope (call w) |} ]).
Proof.
  destruct (decide (state (call w) = Ended)) as [H|H].
  - rewrite hangup_ended by done. by rewrite app_nil_r.
  - rewrite hangup_live by done.
    destruct (terminate_frame Local (code_string reason) (negb suppressEvent) w)
      as (Hs & _ & _ & _ & Hr & _).
    cbv zeta in Hs, Hr.
    unfold sendVoipEvent, exec at 1. cbn [snd set_sent sent].
    rewrite envelope_terminate, Hs, Hr.
    by rewrite (right_id_L ∅ (∪)).
Qed.

(** C10.  The messages [hangup] hands to the transport: none on a call that
    has ended, and otherwise exactly one [m.call.hangup] whose content is the
    envelope (version, call_id, party_id) and nothing else, whatever the
    reason is; in particular it has no [reason] field. *)
Theorem hangup_sends_envelope_only reason suppressEvent w :
  let content : gmap string JVal :=
    {[ "version" := JNum 0;
       "call_id" := JStr (callId (call w));
       "party_id" := JStr (ourPartyId (call w)) ]} in
  sent (exec (hangup reason suppressEvent) w)
  = sent w ++
    (if decide (state (call w) = Ended) then []
     else [ {| ev_room := roomId (call w); ev_type := "m.call.hangup";
               ev_content := content |} ])
  ∧ content !! "reason" = None
  ∧ dom content = {[ "version"; "call_id"; "party_id" ]}.
Proof.
  intros content. split; [|split].
  - apply hangup_sent.
  - done.
  - unfold content. rewrite !dom_insert_L, dom_singleton_L. set_solver.
Qed.

(** ** The candidate queue *)

Lemma foldl_push {A} (q l : list A) : foldl (λ acc c, acc ++ [c]) q l = q ++ l.
Proof.
  revert q. induction l as [|x l IH]; intros q; simpl.
  - by rewrite app_nil_r.
  - rewrite IH. by rewrite <- app_assoc.
Qed.

(** The buffer after a failed flush: what was enqueued while the batch was
    in flight comes first, the failed batch follows. *)
Lemma sendCandidateQueue_catch_queue batch w :
  candidateSendQueue (call (exec (sendCandidateQueue_catch batch) w))
  = candidateSendQueue (call w) ++ batch.
Proof.
  rewrite <- foldl_push.
  destruct_world w. unfold sendCandidateQueue_catch, exec.
  rewrite !bind_apply.
  cbn [this assign fst snd call set_call candidateSendTries
       set_candidateSendQueue].
  case_bool_decide; reflexivity.
Qed.

(** What a flush hands to the transport. *)
Lemma sendCandidateQueue_sent w :
  sent (exec sendCandidateQueue w)
  = sent w ++
    match candidateSendQueue (call w) with
    | [] => []
    | cands =>
        [ {| ev_room := roomId (call w); ev_type := "m.call.candidates";
             ev_content := envelope (call w)
                           ∪ {[ "candidates" := JCandidates cands ]} |} ]
    end.
Proof.
  destruct_world w. destruct candidateSendQueue0 as [|c q].
  - cbn. by rewrite app_nil_r.
  - reflexivity.
Qed.

(** C3, as stated, fails: the failed batch [c1; c2] goes behind the
    candidate [c3] that was enqueued while it was in flight, and the retry
    sends [c3; c1; c2]. *)
Lemma failed_batch_not_prepended :
  (candidateSendQueue ∘ call) <$> flushFailedInFlight
    = Some [cand "c3"; cand "c1"; cand "c2"]
  ∧ (candidateSendQueue ∘ call) <$> flushFailedInFlight
    ≠ Some ([cand "c1"; cand "c2"] ++ [cand "c3"])
  ∧ inflight <$> (flushFailedInFlight
                  ≫= run (rtc := acceptingStack) [TimerFires 4])
    = Some [KCandidates [cand "c3"; cand "c1"; cand "c2"]].
Proof. vm_compute. repeat split. discriminate. Qed.

(** C3, amended.  After a failed flush the buffer holds what was enqueued
    while the batch was in flight followed by the failed batch in its
    original order; a later flush sends the whole buffer in that order, which
    is the original enqueue order when nothing was enqueued in flight. *)
Theorem failed_batch_is_appended batch w :
  let w1 := exec (sendCandidateQueue_catch batch) w in
  let message cands :=
    {| ev_room := roomId (call w1); ev_type := "m.call.candidates";
       ev_content := envelope (call w1)
                     ∪ {[ "candidates" := JCandidates cands ]} |} in
  candidateSendQueue (call w1) = candidateSendQueue (call w) ++ batch
  ∧ (batch ≠ [] →
     sent (exec sendCandidateQueue w1)
     = sent w1 ++ [message (candidateSendQueue (call w) ++ batch)])
  ∧ (batch ≠ [] → candidateSendQueue (call w) = [] →
     sent (exec sendCandidateQueue w1) = sent w1 ++ [message batch]).
Proof.
  intros w1 message.
  assert (Hq : candidateSendQueue (call w1) = candidateSendQueue (call w) ++ batch)
    by apply sendCandidateQueue_catch_queue.
  assert (Hs : batch ≠ [] →
     sent (exec sendCandidateQueue w1)
     = sent w1 ++ [message (candidateSendQueue (call w) ++ batch)]).
  { intros Hb. rewrite sendCandidateQueue_sent, Hq.
    destruct (candidateSendQueue (call w) ++ batch) eqn:E; [|done].
    by apply app_eq_nil in E as [_ ?]. }
  split; [done|]. split; [done|].
  intros Hb H0. rewrite Hs by done. by rewrite H0.
Qed.

Lemma failed_batch_is_appended_witness :
  candidateSendQueue
    (call (exec (sendCandidateQueue_catch [cand "c1"; cand "c2"]) queuedC3))
  = [cand "c3"; cand "c1"; cand "c2"]
  ∧ ev_content <$>
      last (sent (exec sendCandidateQueue
                    (exec (sendCandidateQueue_catch [cand "c1"; cand "c2"]) queuedC3)))
    = Some (envelope (call queuedC3)
            ∪ {[ "candidates" := JCandidates [cand "c3"; cand "c1"; cand "c2"] ]}).
Proof.
  destruct (failed_batch_is_appended [cand "c1"; cand "c2"] queuedC3)
    as (H1 & H2 & _).
  split; [exact H1|].
  rewrite H2 by discriminate. rewrite last_snoc. reflexivity.
Defined.

(** ** Retrying a failed flush *)



(** The counter is incremented by the flush and again by the failure
    handler, so it stands at 1, 3, 5 and 7 at the successive failures of one
    batch: the retries are scheduled after 1000, 4000 and 16000 ms and the
    fourth failure abandons the queue. *)
Example candidate_retry_schedule :
  let failures :=
    [ TimerFires 2; Settled 0 (Rejected "Error");
      TimerFires 3; Settled 0 (Rejected "Error");
      TimerFires 4; Settled 0 (Rejected "Error");
      TimerFires 5; Settled 0 (Rejected "Error") ] in
  let failed k :=
    run (rtc := acceptingStack)
      (LocalIceCandidate (Some (cand "c1")) :: take k failures) invited in
  (λ w, (candidateSendTries (call w), timer_delay <$> timers w)) <$> failed 2
    = Some (2, [60000; 1000]%Z)
  ∧ (λ w, (candidateSendTries (call w), timer_delay <$> timers w)) <$> failed 4
    = Some (4, [60000; 4000]%Z)
  ∧ (λ w, (candidateSendTries (call w), timer_delay <$> timers w)) <$> failed 6
    = Some (6, [60000; 16000]%Z)
  ∧ (λ w, (candidateSendTries (call w), timer_delay <$> timers w)) <$> failed 8
    = Some (0, [60000]%Z)
  ∧ (state ∘ call) <$> failed 8 = Some InviteSent.
Proof. vm_compute. done. Qed.

(** ** Perfect negotiation *)

Section Negotiation.
Context {rtc : WebRTC}.

(** C7.  On an outbound call, a negotiate message that carries an offer
    (a description with an sdp and the type "offer") and arrives while an
    offer is being made, or while the signalling state of the connection
    is not stable, sets [ignoreOffer] and does nothing else: the peer
    connection is left as it was (no remote description is set, no answer
    is created) and nothing is sent. *)
Theorem impolite_offer_collision_ignored ev description w :
  neg_description ev = Some description →
  truthy (sdp description) = true →
  sdpType description = Some "offer" →
  direction (call w) = Some Outbound →
  makingOffer (call w) = true
    ∨ signalingState <$> peerConn (call w) ≠ Some Stable →
  let w' := exec (onNegotiateReceived ev) w in
  ignoreOffer (call w') = true
  ∧ peerConn (call w') = peerConn (call w)
  ∧ sent w' = sent w
  ∧ w' = set_call (set_ignoreOffer true (call w)) w.
Proof.
  intros Hd Hsdp Hty Hdir Hcoll w'.
  assert (Hw : w' = set_call (set_ignoreOffer true (call w)) w).
  { subst w'. unfold onNegotiateReceived, exec. rewrite Hd, Hsdp, Hty.
    cbn [truthy negb orb]. rewrite bool_decide_eq_true_2 by done.
    cbn [negb]. rewrite !bind_apply. cbn [this assign fst snd].
    rewrite Hdir.
    assert (Hc : makingOffer (call w)
                 || bool_decide (signalingState <$> peerConn (call w) ≠ Some Stable)
                 = true).
    { destruct Hcoll as [->|Hs]; [done|].
      rewrite (bool_decide_eq_true_2 _ Hs). by rewrite orb_true_r. }
    rewrite Hc. cbn. reflexivity. }
  rewrite Hw. destruct_world w. repeat split; reflexivity.
Qed.
End Negotiation.

(** ** The party id filter *)

Lemma partyIdMatches_apply party_id w :
  partyIdMatches party_id w
  = (bool_decide (Some (or_null party_id) = opponentPartyId (call w)), w).
Proof. reflexivity. Qed.

Lemma callHasEnded_apply w :
  callHasEnded w = (bool_decide (state (call w) = Ended), w).
Proof. reflexivity. Qed.

Lemma onRemoteIceCandidatesReceived_mismatch ev w :
  Some (or_null (cnd_party_id ev)) ≠ opponentPartyId (call w) →
  exec (onRemoteIceCandidatesReceived ev) w = w.
Proof.
  intros H. unfold onRemoteIceCandidatesReceived, exec.
  rewrite bind_apply, callHasEnded_apply. cbn [fst snd].
  case_bool_decide; [done|].
  rewrite bind_apply, partyIdMatches_apply. cbn [fst snd].
  by rewrite bool_decide_eq_false_2.
Qed.

Lemma onHangupReceived_mismatch msg w :
  opponentPartyId (call w) ≠ None →
  Some (or_null (hup_party_id msg)) ≠ opponentPartyId (call w) →
  exec (onHangupReceived msg) w = w.
Proof.
  intros Hc H. unfold onHangupReceived, exec.
  rewrite bind_apply, partyIdMatches_apply. cbn [fst snd].
  rewrite bind_apply. cbn [this fst snd].
  rewrite bool_decide_eq_false_2 by done.
  by rewrite bool_decide_eq_true_2.
Qed.

(** The carve-out of VoIP v0: a hangup doubles as a reject while no partner
    has been chosen. *)
Lemma onHangupReceived_unchosen msg w :
  opponentPartyId (call w) = None →
  exec (onHangupReceived msg) w
  = exec (terminate Remote
            (default (code_string UserHangup) (or_null (hup_reason msg))) true) w.
Proof.
  intros Hc. unfold onHangupReceived, exec.
  rewrite bind_apply, partyIdMatches_apply. cbn [fst snd].
  rewrite bind_apply. cbn [this fst snd].
  rewrite Hc. rewrite (bool_decide_eq_false_2 (None ≠ None)) by (intros ?; done).
  by rewrite andb_false_r.
Qed.

(** [onSelectAnswerReceived] looks at the direction of the call and at the
    selected party, never at the sender. *)
Lemma onSelectAnswerReceived_spec ev w :
  exec (onSelectAnswerReceived ev) w
  = match sel_selected_party_id ev with
    | Some p =>
        if decide (direction (call w) = Some Inbound ∧ p ≠ ourPartyId (call w))
        then exec (terminate Remote (code_string AnsweredElsewhere) true) w
        else w
    | None => w
    end.
Proof.
  unfold onSelectAnswerReceived, exec.
  rewrite bind_apply. cbn [this fst snd].
  case_bool_decide as Hd.
  - destruct (sel_selected_party_id ev); [|done].
    rewrite decide_False; [done|]. intros [? _]; done.
  - destruct (sel_selected_party_id ev) as [p|]; [|done].
    rewrite bind_apply. cbn [this fst snd]. unfold when.
    case_bool_decide as Hp.
    + rewrite decide_True; [done|]. split; [|done].
      by destruct (decide (direction (call w) = Some Inbound)).
    + rewrite decide_False; [done|]. intros [_ ?]; done.
Qed.

Section PartyId.
Context {rtc : WebRTC}.

Lemma onAnswerReceived_chosen ev w :
  opponentPartyId (call w) ≠ None → exec (onAnswerReceived ev) w = w.
Proof.
  intros H. unfold onAnswerReceived, exec.
  rewrite bind_apply, callHasEnded_apply. cbn [fst snd].
  case_bool_decide; [done|].
  rewrite bind_apply. cbn [this fst snd].
  by rewrite bool_decide_eq_true_2.
Qed.

(** C1, amended.  Once a partner is chosen, an answer changes nothing, and
    a candidates or hangup message whose party id (a missing one read as
    null) is not the partner's changes nothing; a hangup is accepted from
    anybody while no partner is chosen; a select_answer is not filtered by
    its sender: it ends an inbound call when it selects a party that is
    not ours, and changes nothing otherwise. *)
Theorem party_id_filter w :
  (opponentPartyId (call w) ≠ None →
     (∀ ev, exec (onAnswerReceived ev) w = w)
     ∧ (∀ ev, Some (or_null (cnd_party_id ev)) ≠ opponentPartyId (call w) →
              exec (onRemoteIceCandidatesReceived ev) w = w)
     ∧ (∀ msg, Some (or_null (hup_party_id msg)) ≠ opponentPartyId (call w) →
               exec (onHangupReceived msg) w = w))
  ∧ (opponentPartyId (call w) = None →
     ∀ msg, exec (onHangupReceived msg) w
            = exec (terminate Remote
                      (default "user_hangup" (or_null (hup_reason msg))) true) w)
  ∧ (∀ ev, exec (onSelectAnswerReceived ev) w
           = match sel_selected_party_id ev with
             | Some p =>
                 if decide (direction (call w) = Some Inbound
                            ∧ p ≠ ourPartyId (call w))
                 then exec (terminate Remote "answered_elsewhere" true) w
                 else w
             | None => w
             end).
Proof.
  split; [|split].
  - intros H. split; [|split].
    + intros ev. by apply onAnswerReceived_chosen.
    + intros ev. apply onRemoteIceCandidatesReceived_mismatch.
    + intros msg. by apply onHangupReceived_mismatch.
  - intros H msg. by apply onHangupReceived_unchosen.
  - intros ev. apply onSelectAnswerReceived_spec.
Qed.
End PartyId.

Lemma party_id_filter_witness :
  exec (onRemoteIceCandidatesReceived
          {| cnd_party_id := Some "D3"; cnd_candidates := Some [cand "x"] |})
       inboundRinging = inboundRinging
  ∧ exec (onHangupReceived {| hup_party_id := None; hup_reason := None |})
         inboundRinging = inboundRinging
  ∧ state (call (exec (onHangupReceived
                         {| hup_party_id := Some "D7"; hup_reason := None |})
                   inboundFresh)) = Ended.
Proof.
  destruct (party_id_filter (rtc := acceptingStack) inboundRinging)
    as (Hchosen & _ & _).
  destruct Hchosen as (_ & Hc & Hh); [discriminate|].
  destruct (party_id_filter (rtc := acceptingStack) inboundFresh)
    as (_ & Hun & _).
  split; [apply Hc; discriminate|].
  split; [apply Hh; discriminate|].
  rewrite Hun by reflexivity. reflexivity.
Defined.

(** C1, as stated, fails for select_answer: the partner of the call is D2,
    the message comes from D3, and it ends the call. *)
Lemma select_answer_from_other_party_ends_call :
  let ev := {| sel_party_id := Some "D3"; sel_selected_party_id := Some "D9" |} in
  opponentPartyId (call inboundRinging) = Some (Some "D2")
  ∧ or_null (sel_party_id ev) = Some "D3"
  ∧ state (call inboundRinging) = Ringing
  ∧ state (call (exec (onSelectAnswerReceived ev) inboundRinging)) = Ended
  ∧ exec (onSelectAnswerReceived ev) inboundRinging ≠ inboundRinging.
Proof.
  repeat split; try reflexivity.
  intros H. apply (f_equal (λ w, state (call w))) in H. discriminate.
Qed.

(** [onNegotiateReceived] does not look at the party id either: on a
    connected call with partner D2, an offer from D3 is applied and answered. *)
Example negotiate_from_other_party_is_answered :
  let ev := {| neg_party_id := Some "D3";
               neg_description :=
                 Some {| sdp := Some "o2"; sdpType := Some "offer" |} |} in
  let w : option World :=
    run (rtc := acceptingStack)
      [ Answer; Settled 0 (Fulfilled (Some 7)); TimerFires 2;
        Settled 0 (Fulfilled None); IceConnectionStateChanged IceConnected;
        SignallingStateChanged Stable ]
      inboundRinging in
  (λ w, (opponentPartyId (call w), state (call w))) <$> w
    = Some (Some (Some "D2"), Connected)
  ∧ (λ w, ev_type <$> sent (exec (onNegotiateReceived (rtc := acceptingStack) ev) w))
      <$> w
    = Some ["m.call.answer"; "m.call.negotiate"]
  ∧ (λ w, remoteDescription <$>
            peerConn (call (exec (onNegotiateReceived (rtc := acceptingStack) ev) w)))
      <$> w
    = Some (Some (Some {| sdp := Some "o2"; sdpType := Some "offer" |})).
Proof. vm_compute. done. Qed.

(** ** Remote candidates *)

(** The loop hands to the connection the candidates in front of the first
    one that lacks both fields, and none of those behind it. *)
Lemma addRemoteCandidates_prefix cands w :
  remoteCandidates <$> peerConn (call (exec (addRemoteCandidates cands) w))
  = (λ c, remoteCandidates c ++ beforeUnaddressed cands) <$> peerConn (call w).
Proof.
  revert w. induction cands as [|cand rest IH]; intros w.
  - cbn. destruct (peerConn (call w)); cbn; [|done]. by rewrite app_nil_r.
  - cbn [addRemoteCandidates beforeUnaddressed]. unfold addressed.
    destruct (bool_decide (sdpMid cand = None)
              && bool_decide (sdpMLineIndex cand = None)); cbn [negb].
    + cbn. destruct (peerConn (call w)); cbn; [|done]. by rewrite app_nil_r.
    + rewrite exec_bind, IH. clear IH.
      destruct_world w. destruct peerConn0 as [c|]; [|done].
      cbn. by rewrite <- app_assoc.
Qed.

(** C8 on a live call, for a message of the chosen partner D2: the candidate
    behind a dropped one is not handed to the connection. *)
Theorem candidates_behind_a_dropped_one_are_lost :
  let received cands :=
    run (rtc := acceptingStack)
      [ CandidatesReceived
          {| cnd_party_id := Some "D2"; cnd_candidates := Some cands |} ]
      answered in
  let handed (w : option World) :=
    w ≫= (λ w, remoteCandidates <$> peerConn (call w)) in
  (state (call answered), opponentPartyId (call answered))
    = (Connecting, Some (Some "D2"))
  ∧ handed (received [cand "x"; cand "y"]) = Some [cand "x"; cand "y"]
  ∧ handed (received [unaddressed "u"; cand "y"]) = Some []
  ∧ handed (received [cand "x"; unaddressed "u"; cand "y"]) = Some [cand "x"].
Proof. vm_compute. done. Qed.

(** ** The terminal state *)

(** C2 on an inbound call: the user answers, the answer is handed to the
    transport, the partner hangs up while the send is pending, and the send
    then fails.  The call leaves [Ended] for [Ringing]. *)
Theorem answer_send_failure_leaves_ended :
  let upToHangup :=
    [ Answer; Settled 0 (Fulfilled (Some 7)); TimerFires 2;
      HangupReceived {| hup_party_id := Some "D2"; hup_reason := None |} ] in
  let ended := run (rtc := acceptingStack) upToHangup inboundRinging in
  let after := ended ≫= step (rtc := acceptingStack) (Settled 0 (Rejected "Error")) in
  (λ w, (state (call w), inflight w)) <$> ended = Some (Ended, [KAnswer])
  ∧ (state ∘ call) <$> after = Some Ringing
  ∧ emitted <$> after
    = Some [ EmitState Ringing Fledgling; EmitState WaitLocalMedia Ringing;
             EmitState CreateAnswer WaitLocalMedia;
             EmitState Connecting CreateAnswer; EmitState Ended Connecting;
             EmitHangup; EmitState Ringing Ended; EmitError SendAnswer ].
Proof. vm_compute. done. Qed.

(** [answer] does not look at the state either: on a call that has ended
    before the user answered it moves the state to [WaitLocalMedia]. *)
Example answer_leaves_ended :
  let ended :=
    run (rtc := acceptingStack)
      [ HangupReceived {| hup_party_id := Some "D2"; hup_reason := None |} ]
      inboundRinging in
  (state ∘ call) <$> ended = Some Ended
  ∧ (state ∘ call) <$> (ended ≫= step (rtc := acceptingStack) Answer)
    = Some WaitLocalMedia.
Proof. vm_compute. done. Qed.

(** ** Expiry of an invite *)

Lemma inviteExpired_ringing w :
  state (call w) = Ringing →
  let w' := exec inviteExpired w in
  state (call w') = Ended
  ∧ hangupParty (call w') = Some Remote
  ∧ hangupReason (call w') = hangupReason (call w)
  ∧ sent w' = sent w.
Proof.
  destruct_world w. cbn [call state]. intros ->.
  destruct localAVStream0, screenSharingStream0, remoteStream0;
    destruct_conn peerConn0; lazy; repeat split; reflexivity.
Qed.

Lemma inviteExpired_other w :
  state (call w) ≠ Ringing → exec inviteExpired w = w.
Proof.
  intros H. unfold inviteExpired, exec. rewrite bind_apply. cbn [this fst snd].
  by rewrite bool_decide_eq_false_2.
Qed.

Section Expiry.
Context {rtc : WebRTC}.

(** What [initWithInvite] makes of a fresh call when the stack accepts the
    offer and reports a remote stream. *)
Lemma initWithInvite_rings room cid dev media msg c s rest :
  rtc_setRemoteDescription newPeerConnection (inv_offer msg) = Some c →
  remoteStreams c = s :: rest →
  let w := exec (initWithInvite msg)
             (initialWorld (newMatrixCall room cid dev) media) in
  state (call w) = Ringing
  ∧ direction (call w) = Some Inbound
  ∧ hangupReason (call w) = ""
  ∧ opponentPartyId (call w) = Some (or_null (inv_party_id msg))
  ∧ timers w
    = match inv_localAge msg with
      | Some age =>
          if decide (age = 0%Z) then []
          else [ {| timer_id := 1;
                    timer_delay := inv_lifetime msg - age;
                    timer_cb := CbInviteExpired |} ]
      | None => []
      end.
Proof.
  intros Hset Hstreams. unfold initWithInvite. rewrite Hset, Hstreams.
  destruct (inv_localAge msg) as [age|].
  - destruct (decide (age = 0%Z)) as [->|Hage].
    + lazy. repeat split; reflexivity.
    + rewrite (bool_decide_eq_true_2 _ Hage).
      lazy -[Z.sub]. repeat split; reflexivity.
  - lazy. repeat split; reflexivity.
Qed.

End Expiry.



(** An invite whose local age is reported as zero never expires. *)
Example invite_without_age_has_no_timer :
  timers (exec (initWithInvite (rtc := acceptingStack)
                  {| inv_offer := inv_offer invite; inv_version := Some 0%Z;
                     inv_party_id := Some "D2"; inv_lifetime := 60000;
                     inv_localAge := Some 0%Z |}) inboundFresh) = [].
Proof. reflexivity. Qed.

(** ** The invite timer *)

Create HintDb quiet discriminated.

Lemma quiet_ret {A} (x : A) : quiet (ret x).
Proof. by intros w t. Qed.

Lemma quiet_bind {A B} (m : M A) (f : A → M B) :
  quiet m → (∀ a, quiet (f a)) → quiet (bind m f).
Proof. intros Hm Hf w t H. apply Hm. by apply (Hf _ _ _ H). Qed.

(** Reading the world, and writing anything but the timers. *)
Lemma quiet_same_timers {A} (m : M A) :
  (∀ w, timers (m w).2 = timers w) → quiet m.
Proof. intros H w t [Ht Hcb]. split; [|done]. by rewrite <- H. Qed.

Lemma quiet_this {A} (f : MatrixCall → A) : quiet (this f).
Proof. by apply quiet_same_timers. Qed.
Lemma quiet_assign {A} (set : A → MatrixCall → MatrixCall) v :
  quiet (assign set v).
Proof. by apply quiet_same_timers. Qed.
Lemma quiet_emit e : quiet (emit e).
Proof. by apply quiet_same_timers. Qed.
Lemma quiet_whenSettled k : quiet (whenSettled k).
Proof. by apply quiet_same_timers. Qed.
Lemma quiet_cancelPendingEvent : quiet cancelPendingEvent.
Proof. by apply quiet_same_timers. Qed.
Lemma quiet_sendVoipEvent eventType content :
  quiet (sendVoipEvent eventType content).
Proof. by apply quiet_same_timers. Qed.
Lemma quiet_stopTracks s : quiet (stopTracks s).
Proof. apply quiet_same_timers. by destruct s. Qed.
Lemma quiet_enableAudioTracks s : quiet (enableAudioTracks s).
Proof. by apply quiet_same_timers. Qed.
Lemma quiet_read {A} (f : World → A) : quiet (λ w, (f w, w)).
Proof. by apply quiet_same_timers. Qed.

Lemma quiet_clearTimeout h : quiet (clearTimeout h).
Proof.
  intros w t [Ht Hcb]. split; [|done].
  cbn in Ht. by apply list_elem_of_filter in Ht as [_ ?].
Qed.

Lemma quiet_setTimeout cb delay :
  cb ≠ CbInviteTimeout → quiet (setTimeout cb delay).
Proof.
  intros Hcb w t [Ht Ht']. split; [|done].
  cbn in Ht. apply elem_of_app in Ht as [?|Ht]; [done|].
  apply list_elem_of_singleton in Ht. by subst t.
Qed.

#[global] Hint Resolve quiet_ret quiet_this quiet_assign quiet_emit
  quiet_whenSettled quiet_cancelPendingEvent quiet_sendVoipEvent
  quiet_stopTracks quiet_enableAudioTracks quiet_read quiet_clearTimeout
  : quiet.
#[global] Hint Extern 1 (quiet (setTimeout _ _)) =>
  apply quiet_setTimeout; discriminate : quiet.

(** One step through the text of a method. *)
Ltac quiet_step :=
  lazymatch goal with
  | |- quiet (bind _ _) => apply quiet_bind; [|intros ?]
  | |- quiet (if ?b then _ else _) => destruct b
  | |- quiet (match ?x with _ => _ end) => destruct x
  | |- quiet (let _ := _ in _) => cbv zeta
  | |- quiet (when _ _) => unfold when
  | |- quiet skip => apply quiet_ret
  | |- quiet _ => solve [eauto with quiet]
  end.
Ltac quiet_method := repeat quiet_step.

Lemma quiet_setState st : quiet (setState st).
Proof. unfold setState. quiet_method. Qed.
Lemma quiet_callHasEnded : quiet callHasEnded.
Proof. unfold callHasEnded. quiet_method. Qed.
Lemma quiet_stopAllMedia : quiet stopAllMedia.
Proof. unfold stopAllMedia. quiet_method. Qed.
#[global] Hint Resolve quiet_setState quiet_callHasEnded quiet_stopAllMedia
  : quiet.

Lemma quiet_terminate party reason shouldEmit :
  quiet (terminate party reason shouldEmit).
Proof. unfold terminate. quiet_method. Qed.
#[global] Hint Resolve quiet_terminate : quiet.

Lemma quiet_hangup reason suppressEvent : quiet (hangup reason suppressEvent).
Proof. unfold hangup. quiet_method. Qed.
Lemma quiet_partyIdMatches p : quiet (partyIdMatches p).
Proof. unfold partyIdMatches. quiet_method. Qed.
Lemma quiet_sendCandidateQueue : quiet sendCandidateQueue.
Proof. unfold sendCandidateQueue. quiet_method. Qed.
Lemma quiet_isLocalOnHold : quiet isLocalOnHold.
Proof. unfold isLocalOnHold. quiet_method. Qed.
Lemma quiet_addStream s : quiet (addStream s).
Proof. unfold addStream. quiet_method. Qed.
#[global] Hint Resolve quiet_hangup quiet_partyIdMatches
  quiet_sendCandidateQueue quiet_isLocalOnHold quiet_addStream : quiet.

Lemma quiet_sendCandidateQueue_then : quiet sendCandidateQueue_then.
Proof. unfold sendCandidateQueue_then. quiet_method. Qed.
Lemma quiet_sendCandidateQueue_catch cands :
  quiet (sendCandidateQueue_catch cands).
Proof. unfold sendCandidateQueue_catch. quiet_method. Qed.
Lemma quiet_queueCandidate c : quiet (queueCandidate c).
Proof. unfold queueCandidate. quiet_method. Qed.
#[global] Hint Resolve quiet_sendCandidateQueue_then
  quiet_sendCandidateQueue_catch quiet_queueCandidate : quiet.

Lemma quiet_initWithHangup : quiet initWithHangup.
Proof. unfold initWithHangup. quiet_method. Qed.
Lemma quiet_inviteExpired : quiet inviteExpired.
Proof. unfold inviteExpired. quiet_method. Qed.
Lemma quiet_reject : quiet reject.
Proof. unfold reject. quiet_method. Qed.
Lemma quiet_gotLocalIceCandidate c : quiet (gotLocalIceCandidate c).
Proof. unfold gotLocalIceCandidate. quiet_method. Qed.
Lemma quiet_onIceGatheringStateChange g : quiet (onIceGatheringStateChange g).
Proof. unfold onIceGatheringStateChange. quiet_method. Qed.
Lemma quiet_addIceCandidate c : quiet (addIceCandidate c).
Proof. unfold addIceCandidate. quiet_method. Qed.
#[global] Hint Resolve quiet_addIceCandidate : quiet.
Lemma quiet_addRemoteCandidates cands : quiet (addRemoteCandidates cands).
Proof.
  induction cands as [|c cands IH]; cbn [addRemoteCandidates]; quiet_method.
Qed.
#[global] Hint Resolve quiet_addRemoteCandidates : quiet.
Lemma quiet_onRemoteIceCandidatesReceived ev :
  quiet (onRemoteIceCandidatesReceived ev).
Proof. unfold onRemoteIceCandidatesReceived. quiet_method. Qed.
Lemma quiet_onSelectAnswerReceived ev : quiet (onSelectAnswerReceived ev).
Proof. unfold onSelectAnswerReceived. quiet_method. Qed.
Lemma quiet_onHangupReceived msg : quiet (onHangupReceived msg).
Proof. unfold onHangupReceived. quiet_method. Qed.
Lemma quiet_onRejectReceived : quiet onRejectReceived.
Proof. unfold onRejectReceived. quiet_method. Qed.
Lemma quiet_onAnsweredElsewhere : quiet onAnsweredElsewhere.
Proof. unfold onAnsweredElsewhere. quiet_method. Qed.
Lemma quiet_onIceConnectionStateChanged s :
  quiet (onIceConnectionStateChanged s).
Proof. unfold onIceConnectionStateChanged. quiet_method. Qed.
Lemma quiet_onSignallingStateChanged s : quiet (onSignallingStateChanged s).
Proof. unfold onSignallingStateChanged. quiet_method. Qed.
Lemma quiet_getUserMediaFailed : quiet getUserMediaFailed.
Proof. unfold getUserMediaFailed. quiet_method. Qed.
Lemma quiet_getLocalOfferFailed : quiet getLocalOfferFailed.
Proof. unfold getLocalOfferFailed. quiet_method. Qed.
Lemma quiet_inviteTimedOut : quiet inviteTimedOut.
Proof. unfold inviteTimedOut. quiet_method. Qed.
Lemma quiet_sendAnswer : quiet sendAnswer.
Proof. unfold sendAnswer. quiet_method. Qed.
#[global] Hint Resolve quiet_sendAnswer quiet_getLocalOfferFailed
  quiet_getUserMediaFailed : quiet.
Lemma quiet_sendAnswer_then : quiet sendAnswer_then.
Proof. unfold sendAnswer_then. quiet_method. Qed.
Lemma quiet_sendAnswer_catch e : quiet (sendAnswer_catch e).
Proof. unfold sendAnswer_catch. quiet_method. Qed.
Lemma quiet_sendAnswerAfterGathering : quiet sendAnswerAfterGathering.
Proof. unfold sendAnswerAfterGathering. quiet_method. Qed.
Lemma quiet_offerDone : quiet offerDone.
Proof. unfold offerDone. quiet_method. Qed.
#[global] Hint Resolve quiet_offerDone : quiet.
Lemma quiet_gotLocalOffer_resume finally :
  quiet finally → quiet (gotLocalOffer_resume finally).
Proof. intros H. unfold gotLocalOffer_resume. quiet_method. Qed.
Lemma quiet_gotLocalOffer_sendFailed e : quiet (gotLocalOffer_sendFailed e).
Proof. unfold gotLocalOffer_sendFailed. quiet_method. Qed.
#[global] Hint Resolve quiet_gotLocalOffer_resume : quiet.

Section InviteTimer.
Context {rtc : WebRTC}.

Lemma quiet_initWithInvite msg : quiet (initWithInvite msg).
Proof. unfold initWithInvite. quiet_method. Qed.
Lemma quiet_gotUserMediaForAnswer s : quiet (gotUserMediaForAnswer s).
Proof. unfold gotUserMediaForAnswer. quiet_method. Qed.
Hint Resolve quiet_gotUserMediaForAnswer : quiet.
Lemma quiet_answer : quiet answer.
Proof. unfold answer. quiet_method. Qed.
Lemma quiet_answer_gotMedia s : quiet (answer_gotMedia s).
Proof. unfold answer_gotMedia. quiet_method. Qed.
Lemma quiet_onAnswerReceived ev : quiet (onAnswerReceived ev).
Proof. unfold onAnswerReceived. quiet_method. Qed.
Lemma quiet_negotiate d : quiet (negotiate d).
Proof. unfold negotiate. quiet_method. Qed.
Hint Resolve quiet_negotiate : quiet.
Lemma quiet_onNegotiateReceived ev : quiet (onNegotiateReceived ev).
Proof. unfold onNegotiateReceived. quiet_method. Qed.
Lemma quiet_gotLocalOffer d finally :
  quiet finally → quiet (gotLocalOffer d finally).
Proof. intros H. unfold gotLocalOffer. quiet_method. Qed.
Hint Resolve quiet_gotLocalOffer : quiet.
Lemma quiet_onNegotiationNeeded : quiet onNegotiationNeeded.
Proof. unfold onNegotiationNeeded. quiet_method. Qed.
Lemma quiet_gotUserMediaForInvite s : quiet (gotUserMediaForInvite s).
Proof. unfold gotUserMediaForInvite. quiet_method. Qed.
Lemma quiet_placeVoiceCall : quiet placeVoiceCall.
Proof. unfold placeVoiceCall. quiet_method. Qed.

Lemma quiet_fire cb : quiet (fire cb).
Proof.
  destruct cb; cbn [fire];
    eauto using quiet_inviteExpired, quiet_sendAnswerAfterGathering,
      quiet_inviteTimedOut with quiet.
Qed.

(** Every continuation but the one of a fulfilled offer send is quiet. *)
Lemma quiet_settle k o m :
  settle k o = Some m →
  (k = KOffer ∧ ∃ s, o = Fulfilled s) ∨ quiet m.
Proof.
  destruct k, o as [[s|]|e]; cbn [settle]; intros [= <-];
    first [ left; split; [done|]; eexists; done
          | right;
            eauto using quiet_sendAnswer_then, quiet_sendAnswer_catch,
              quiet_gotLocalOffer_sendFailed, quiet_answer_gotMedia,
              quiet_gotUserMediaForInvite, quiet_bind with quiet ].
Qed.
End InviteTimer.

#[global] Hint Resolve quiet_initWithHangup quiet_inviteExpired quiet_reject
  quiet_gotLocalIceCandidate quiet_onIceGatheringStateChange
  quiet_onRemoteIceCandidatesReceived quiet_onSelectAnswerReceived
  quiet_onHangupReceived quiet_onRejectReceived quiet_onAnsweredElsewhere
  quiet_onIceConnectionStateChanged quiet_onSignallingStateChanged
  quiet_inviteTimedOut quiet_sendAnswer_then quiet_sendAnswer_catch
  quiet_sendAnswerAfterGathering quiet_gotLocalOffer_sendFailed
  quiet_initWithInvite quiet_answer quiet_answer_gotMedia
  quiet_onAnswerReceived quiet_onNegotiateReceived quiet_onNegotiationNeeded
  quiet_gotUserMediaForInvite quiet_placeVoiceCall quiet_fire : quiet.

Lemma quiet_exec {A} (m : M A) w t :
  quiet m → armed (exec m w) t → armed w t.
Proof. intros H. apply H. Qed.

(** The one place that arms the invite timer: the continuation of a
    fulfilled offer send, on a call that is still in [CreateOffer]. *)
Lemma gotLocalOffer_sent_arms w t :
  let w' := exec (gotLocalOffer_sent;; offerDone) w in
  armed w' t →
  armed w t
  ∨ (state (call w) = CreateOffer ∧ state (call w') = InviteSent
     ∧ timer_delay t = CALL_TIMEOUT_MS
     ∧ inviteTimeout (call w') = Some (timer_id t)).
Proof.
  intros w' [Ht Hcb]. subst w'. destruct_world w.
  destruct candidateSendQueue0 as [|c q]; destruct state0;
    try (left; split; [exact Ht | exact Hcb]).
  all: change (t ∈ timers0 ++ [ {| timer_id := nextTimer0;
                                   timer_delay := CALL_TIMEOUT_MS;
                                   timer_cb := CbInviteTimeout |} ]) in Ht;
    apply elem_of_app in Ht as [Ht|Ht]; [by left|right];
    apply list_elem_of_singleton in Ht; subst t; repeat split; reflexivity.
Qed.

Lemma inviteTimedOut_other w :
  state (call w) ≠ InviteSent →
  exec inviteTimedOut w = set_call (set_inviteTimeout None (call w)) w.
Proof.
  intros H. unfold inviteTimedOut, exec.
  rewrite !bind_apply. cbn [assign this fst snd].
  replace (state (call (set_call (set_inviteTimeout None (call w)) w)))
    with (state (call w)) by by destruct_world w.
  by rewrite bool_decide_eq_false_2.
Qed.

Lemma inviteTimedOut_invited w :
  state (call w) = InviteSent →
  exec inviteTimedOut w
  = exec (hangup InviteTimeout false)
      (set_call (set_inviteTimeout None (call w)) w).
Proof.
  intros H. unfold inviteTimedOut, exec.
  rewrite !bind_apply. cbn [assign this fst snd].
  replace (state (call (set_call (set_inviteTimeout None (call w)) w)))
    with (state (call w)) by by destruct_world w.
  by rewrite bool_decide_eq_true_2.
Qed.

Section InviteTimeout.
Context {rtc : WebRTC}.

Lemma step_arms e w w' t :
  step e w = Some w' →
  armed w' t →
  armed w t
  ∨ (state (call w) = CreateOffer ∧ state (call w') = InviteSent
     ∧ timer_delay t = CALL_TIMEOUT_MS
     ∧ inviteTimeout (call w') = Some (timer_id t)
     ∧ ∃ i s, e = Settled i (Fulfilled s) ∧ inflight w !! i = Some KOffer).
Proof.
  intros Hstep Ht. destruct e; cbn [step] in Hstep.
  all: try (injection Hstep as <-; left;
            apply quiet_exec in Ht; [exact Ht | solve [eauto with quiet]]).
  - (* reject *)
    case_decide; [|done]. injection Hstep as <-. left.
    apply quiet_exec in Ht; eauto with quiet.
  - (* a timer fires *)
    destruct (find _ _) as [t0|]; [|done]. injection Hstep as <-.
    left. apply quiet_exec in Ht; [done|].
    apply quiet_bind; eauto with quiet.
  - (* a promise is settled *)
    destruct (inflight w !! i) as [k|] eqn:Hk; [|done].
    destruct (settle k o) as [m|] eqn:Hm; [|done]. injection Hstep as <-.
    destruct (quiet_settle k o m Hm) as [[-> [s ->]]|Hq].
    + cbn [settle] in Hm. injection Hm as <-.
      apply gotLocalOffer_sent_arms in Ht as [Ht|(H1 & H2 & H3 & H4)].
      * by left.
      * right. repeat split; try done. by exists i, s.
    + left. by apply Hq in Ht.
Qed.

End InviteTimeout.



Lemma impolite_offer_collision_ignored_witness :
  let w' := exec (onNegotiateReceived (rtc := acceptingStack) collidingOffer)
              offerInFlight in
  makingOffer (call offerInFlight) = true
  ∧ ignoreOffer (call w') = true
  ∧ peerConn (call w') = peerConn (call offerInFlight)
  ∧ sent w' = sent offerInFlight.
Proof.
  destruct (impolite_offer_collision_ignored (rtc := acceptingStack)
              collidingOffer {| sdp := Some "o2"; sdpType := Some "offer" |}
              offerInFlight)
    as (Hi & Hp & Hs & _).
  - reflexivity.
  - reflexivity.
  - reflexivity.
  - reflexivity.
  - left. reflexivity.
  - split; [reflexivity|]. split; [exact Hi|]. split; [exact Hp|exact Hs].
Defined.

(** * Invariants of the event loop *)

(** ** Envelope and state events *)

Lemma chain_app s es es' :
  chain s (es ++ es') = chain s es ≫= λ s', chain s' es'.
Proof.
  revert s. induction es as [|e es IH]; intros s; [done|].
  destruct e; cbn [chain app]; try apply IH.
  case_decide; [apply IH|done].
Qed.

Lemma extends_refl w : extends w w.
Proof.
  split; [done|]. split.
  - exists []. by rewrite app_nil_r.
  - exists []. by rewrite app_nil_r.
Qed.

Lemma stamped_ids c c' m : ids c' = ids c → stamped c m → stamped c' m.
Proof. unfold ids, stamped. intros [= -> -> ->]. done. Qed.

Lemma extends_trans w1 w2 w3 : extends w1 w2 → extends w2 w3 → extends w1 w3.
Proof.
  intros (Hi1 & (m1 & Hs1 & Hf1) & (e1 & He1 & Hc1))
         (Hi2 & (m2 & Hs2 & Hf2) & (e2 & He2 & Hc2)).
  split; [by rewrite Hi2|]. split.
  - exists (m1 ++ m2). split; [by rewrite Hs2, Hs1, app_assoc|].
    apply Forall_app. split; [done|].
    eapply Forall_impl; [exact Hf2|]. intros m. by apply stamped_ids.
  - exists (e1 ++ e2). split; [by rewrite He2, He1, app_assoc|].
    rewrite chain_app, Hc1. exact Hc2.
Qed.

Lemma sound_ret {A} (x : A) : sound (ret x).
Proof. intros w. apply extends_refl. Qed.

Lemma sound_bind {A B} (m : M A) (f : A → M B) :
  sound m → (∀ a, sound (f a)) → sound (bind m f).
Proof. intros Hm Hf w. eapply extends_trans; [apply Hm|apply Hf]. Qed.

(** A computation that touches neither the identity nor the state of the
    call, sends nothing and emits nothing. *)
Lemma sound_silent {A} (m : M A) :
  (∀ w, ids (call (m w).2) = ids (call w)
        ∧ state (call (m w).2) = state (call w)
        ∧ sent (m w).2 = sent w ∧ emitted (m w).2 = emitted w) →
  sound m.
Proof.
  intros H w. destruct (H w) as (Hi & Hst & Hs & He).
  split; [done|]. split.
  - exists []. by rewrite app_nil_r.
  - exists []. rewrite app_nil_r. split; [done|]. cbn. by rewrite Hst.
Qed.

Lemma sound_this {A} (f : MatrixCall → A) : sound (this f).
Proof. by apply sound_silent. Qed.
Lemma sound_read {A} (f : World → A) : sound (λ w, (f w, w)).
Proof. by apply sound_silent. Qed.
Lemma sound_setTimeout cb delay : sound (setTimeout cb delay).
Proof. by apply sound_silent. Qed.
Lemma sound_clearTimeout h : sound (clearTimeout h).
Proof. by apply sound_silent. Qed.
Lemma sound_whenSettled k : sound (whenSettled k).
Proof. by apply sound_silent. Qed.
Lemma sound_cancelPendingEvent : sound cancelPendingEvent.
Proof. by apply sound_silent. Qed.
Lemma sound_stopTracks s : sound (stopTracks s).
Proof. apply sound_silent. by destruct s. Qed.
Lemma sound_enableAudioTracks s : sound (enableAudioTracks s).
Proof. by apply sound_silent. Qed.

(** An assignment to a field other than the state and the identity. *)
Lemma sound_assign {A} (set : A → MatrixCall → MatrixCall) v :
  (∀ c, ids (set v c) = ids c ∧ state (set v c) = state c) →
  sound (assign set v).
Proof.
  intros H. apply sound_silent. intros w. destruct (H (call w)) as [Hi Hs].
  by destruct w.
Qed.

Lemma sound_emit e :
  (∀ new old, e ≠ EmitState new old) → sound (emit e).
Proof.
  intros H w. split; [done|]. split.
  - exists []. by rewrite app_nil_r.
  - exists [e]. split; [done|]. destruct e; try done. by destruct (H new old).
Qed.

Lemma sound_setState st : sound (setState st).
Proof.
  intros w. split; [by destruct_world w|]. split.
  - exists []. by rewrite app_nil_r.
  - exists [EmitState st (state (call w))]. split; [by destruct_world w|].
    cbn. rewrite decide_True by done. by destruct_world w.
Qed.

(** The envelope wins over the content (lines 1239-1243). *)
Lemma sendVoipEvent_stamped eventType content w :
  sent (exec (sendVoipEvent eventType content) w)
  = sent w ++ [ {| ev_room := roomId (call w); ev_type := eventType;
                   ev_content := envelope (call w) ∪ content |} ]
  ∧ stamped (call w)
      {| ev_room := roomId (call w); ev_type := eventType;
         ev_content := envelope (call w) ∪ content |}.
Proof.
  split; [done|]. unfold stamped, envelope. cbn [ev_room ev_content].
  split; [done|].
  repeat split; apply lookup_union_Some_l; by simplify_map_eq.
Qed.

Lemma sound_sendVoipEvent eventType content :
  sound (sendVoipEvent eventType content).
Proof.
  intros w. destruct (sendVoipEvent_stamped eventType content w) as [Hs Hst].
  split; [done|]. split.
  - eexists. split; [exact Hs|]. by apply Forall_singleton.
  - exists []. by rewrite app_nil_r.
Qed.

Create HintDb sound discriminated.
#[global] Hint Resolve sound_ret sound_this sound_read sound_setTimeout
  sound_clearTimeout sound_whenSettled sound_cancelPendingEvent
  sound_stopTracks sound_enableAudioTracks sound_setState
  sound_sendVoipEvent : sound.
#[global] Hint Extern 1 (sound (assign _ _)) =>
  apply sound_assign; intros []; done : sound.
#[global] Hint Extern 1 (sound (emit _)) =>
  apply sound_emit; discriminate : sound.

(** The head constant of a computation. *)
Ltac head_of t :=
  lazymatch t with
  | ?f _ => head_of f
  | _ => t
  end.

(** One step through the text of a method; a method that has no lemma of
    its own is unfolded. *)
Ltac sound_step :=
  lazymatch goal with
  | |- sound (bind _ _) => apply sound_bind; [|intros ?]
  | |- sound (if ?b then _ else _) => destruct b
  | |- sound (match ?x with _ => _ end) => destruct x
  | |- sound (let _ := _ in _) => cbv zeta
  | |- sound ?m =>
      first [ solve [eauto with sound]
            | let h := head_of m in unfold h ]
  end.
Ltac sound_method := repeat sound_step.

Lemma sound_terminate party reason shouldEmit :
  sound (terminate party reason shouldEmit).
Proof. sound_method. Qed.
#[global] Hint Resolve sound_terminate : sound.
Lemma sound_hangup reason suppressEvent : sound (hangup reason suppressEvent).
Proof. sound_method. Qed.
#[global] Hint Resolve sound_hangup : sound.
Lemma sound_sendCandidateQueue : sound sendCandidateQueue.
Proof. sound_method. Qed.
#[global] Hint Resolve sound_sendCandidateQueue : sound.
Lemma sound_queueCandidate c : sound (queueCandidate c).
Proof. sound_method. Qed.
#[global] Hint Resolve sound_queueCandidate : sound.
Lemma sound_addRemoteCandidates cands : sound (addRemoteCandidates cands).
Proof.
  induction cands as [|c cands IH]; cbn [addRemoteCandidates]; sound_method.
Qed.
#[global] Hint Resolve sound_addRemoteCandidates : sound.

Lemma sound_gotLocalOffer_resume finally :
  sound finally → sound (gotLocalOffer_resume finally).
Proof. intros H. unfold gotLocalOffer_resume. sound_method. Qed.
#[global] Hint Resolve sound_gotLocalOffer_resume : sound.

Section Sound.
Context {rtc : WebRTC}.

Lemma sound_gotUserMediaForAnswer s : sound (gotUserMediaForAnswer s).
Proof. sound_method. Qed.
Lemma sound_gotLocalOffer d finally :
  sound finally → sound (gotLocalOffer d finally).
Proof. intros H. unfold gotLocalOffer. sound_method. Qed.
Hint Resolve sound_gotUserMediaForAnswer sound_gotLocalOffer : sound.

Lemma step_sound e w w' : step e w = Some w' → extends w w'.
Proof.
  intros Hstep. destruct e; cbn [step] in Hstep;
    try (injection Hstep as <-;
         lazymatch goal with |- extends ?w (exec ?m ?w) =>
           revert w; change (sound m); sound_method end).
  - case_decide; [|done]. injection Hstep as <-.
    revert w H. intros w _. revert w. change (sound reject). sound_method.
  - destruct (find _ _) as [t|]; [|done]. injection Hstep as <-.
    revert w. change (sound (clearTimeout h;; fire (timer_cb t))).
    sound_method.
  - destruct (inflight w !! i) as [k|]; [|done].
    destruct (settle k o) as [m|] eqn:Hm; [|done]. injection Hstep as <-.
    assert (Hsound : sound m).
    { destruct k, o as [[s|]|err]; cbn [settle] in Hm;
        try discriminate; injection Hm as <-; sound_method. }
    eapply extends_trans; [|apply Hsound].
    split; [done|]. split; exists []; by rewrite app_nil_r.
Qed.

Lemma run_sound es w w' : run es w = Some w' → extends w w'.
Proof.
  revert w. induction es as [|e es IH]; intros w; cbn [run].
  - intros [= <-]. apply extends_refl.
  - destruct (step e w) as [w1|] eqn:Hstep; [|done]. intros Hrun.
    eapply extends_trans; [by eapply step_sound|by apply IH].
Qed.
End Sound.

(** X1.  The messages of a fresh call carry its envelope, and the identity of the
    call never changes. *)
Theorem every_message_is_stamped `{rtc : WebRTC} es c media w :
  run es (initialWorld c media) = Some w →
  ids (call w) = ids c ∧ Forall (stamped c) (sent w).
Proof.
  intros Hrun. destruct (run_sound es _ w Hrun) as (Hi & (msgs & Hs & Hf) & _).
  split; [exact Hi|]. by rewrite Hs.
Qed.

Lemma every_message_is_stamped_witness :
  ids (call answered) = ("!r", "c1", "D1")
  ∧ Forall (stamped (newMatrixCall "!r" "c1" "D1")) (sent answered).
Proof.
  apply (every_message_is_stamped (rtc := acceptingStack)
           [ PlaceVoiceCall; Settled 0 (Fulfilled (Some 7)); NegotiationNeeded;
             Settled 0 (Fulfilled None);
             AnswerReceived
               {| ans_answer := Some {| sdp := Some "a"; sdpType := Some "answer" |};
                  ans_version := Some 0%Z; ans_party_id := Some "D2" |} ]
           (newMatrixCall "!r" "c1" "D1") {[ 7 := [micTrack] ]} answered).
  vm_compute. reflexivity.
Defined.

(** X2.  The state events of a call form a chain that starts at the state the
    call was constructed in and ends at its current state: the state is
    changed by [setState] only. *)
Theorem state_events_tell_the_state `{rtc : WebRTC} es c media w :
  run es (initialWorld c media) = Some w →
  chain (state c) (emitted w) = Some (state (call w)).
Proof.
  intros Hrun. destruct (run_sound es _ w Hrun) as (_ & _ & (evs & He & Hc)).
  by rewrite He.
Qed.

Lemma state_events_tell_the_state_witness :
  chain Fledgling (emitted answered) = Some Connecting.
Proof.
  apply (state_events_tell_the_state (rtc := acceptingStack)
           [ PlaceVoiceCall; Settled 0 (Fulfilled (Some 7)); NegotiationNeeded;
             Settled 0 (Fulfilled None);
             AnswerReceived
               {| ans_answer := Some {| sdp := Some "a"; sdpType := Some "answer" |};
                  ans_version := Some 0%Z; ans_party_id := Some "D2" |} ]
           (newMatrixCall "!r" "c1" "D1") {[ 7 := [micTrack] ]} answered).
  vm_compute. reflexivity.
Defined.

(** ** Candidates follow a description *)

Lemma candidatesFollow_seen l : candidatesFollow true l = true.
Proof. induction l as [|m l IH]; [done|]. cbn. rewrite IH. by case_match. Qed.

Lemma candidatesFollow_app seen l l' :
  candidatesFollow seen (l ++ l')
  = candidatesFollow seen l
    && candidatesFollow (seen || existsb describesSession l) l'.
Proof.
  revert seen. induction l as [|m l IH]; intros seen; cbn.
  - by rewrite orb_false_r.
  - rewrite IH. by rewrite andb_assoc, orb_assoc.
Qed.

Lemma candidatesFollow_lookup seen l i m :
  candidatesFollow seen l = true →
  l !! i = Some m → ev_type m = "m.call.candidates" →
  seen = true
  ∨ ∃ j m', j < i ∧ l !! j = Some m' ∧ describingType (ev_type m') = true.
Proof.
  revert seen i. induction l as [|x l IH]; intros seen i Hf Hi Hc; [done|].
  cbn in Hf. apply andb_true_iff in Hf as [Hx Hl].
  destruct i as [|i]; cbn in Hi.
  - injection Hi as ->. unfold carriesCandidates in Hx.
    rewrite bool_decide_eq_true_2 in Hx by done. by left.
  - destruct (IH _ _ Hl Hi Hc) as [Hs|(j & m' & Hj & Hm' & Hd)].
    + apply orb_true_iff in Hs as [?|Hs]; [by left|].
      right. exists 0, x. split; [lia|]. done.
    + right. exists (S j), m'. split; [lia|]. done.
Qed.

(** Once a description is out, whatever is sent keeps the candidates behind
    it. *)
Lemma holding_extends w w' :
  extends w w' → holding w → existsb describesSession (sent w) = true →
  holding w'.
Proof.
  intros (_ & (msgs & Hs & _) & _) [Hf _] Hd. split.
  - by rewrite Hs, candidatesFollow_app, Hf, Hd, candidatesFollow_seen.
  - rewrite Hs, existsb_app, Hd. done.
Qed.

Lemma tame_ret {A} (x : A) : tame (ret x).
Proof. by intros w. Qed.

Lemma tame_bind {A B} (m : M A) (f : A → M B) :
  tame m → (∀ a, tame (f a)) → tame (bind m f).
Proof. intros Hm Hf w H. apply Hf, Hm, H. Qed.

Lemma tame_silent {A} (m : M A) :
  (∀ w, sent (m w).2 = sent w ∧ timers (m w).2 = timers w
        ∧ inflight (m w).2 = inflight w
        ∧ inviteOrAnswerSent (call (m w).2) = inviteOrAnswerSent (call w)) →
  tame m.
Proof.
  intros H w. destruct (H w) as (Hs & Ht & Hi & Hf).
  unfold holding. by rewrite Hs, Ht, Hi, Hf.
Qed.

Lemma tame_this {A} (f : MatrixCall → A) : tame (this f).
Proof. by apply tame_silent. Qed.
Lemma tame_read {A} (f : World → A) : tame (λ w, (f w, w)).
Proof. by apply tame_silent. Qed.
Lemma tame_emit e : tame (emit e).
Proof. by apply tame_silent. Qed.
Lemma tame_cancelPendingEvent : tame cancelPendingEvent.
Proof. by apply tame_silent. Qed.
Lemma tame_stopTracks s : tame (stopTracks s).
Proof. apply tame_silent. by destruct s. Qed.
Lemma tame_enableAudioTracks s : tame (enableAudioTracks s).
Proof. by apply tame_silent. Qed.

Lemma tame_assign {A} (set : A → MatrixCall → MatrixCall) v :
  (∀ c, inviteOrAnswerSent (set v c) = inviteOrAnswerSent c) →
  tame (assign set v).
Proof. intros H. apply tame_silent. intros w. by rewrite <- (H (call w)). Qed.

Lemma tame_setTimeout cb delay :
  cb ≠ CbSendCandidateQueue → tame (setTimeout cb delay).
Proof.
  intros Hcb w (Hf & H). split; [done|]. intros Hd.
  destruct (H Hd) as (? & Ht & ?). split; [done|]. split; [|done].
  cbn. apply Forall_app. split; [done|]. by apply Forall_singleton.
Qed.

Lemma tame_clearTimeout h : tame (clearTimeout h).
Proof.
  intros w (Hf & H). split; [done|]. intros Hd.
  destruct (H Hd) as (? & Ht & ?). split; [done|]. split; [|done].
  cbn. apply Forall_forall. intros t Hin.
  apply list_elem_of_filter in Hin as [_ Hin].
  by apply (proj1 (Forall_forall _ _) Ht).
Qed.

Lemma tame_whenSettled k : mediaRequest k = true → tame (whenSettled k).
Proof.
  intros Hk w (Hf & H). split; [done|]. intros Hd.
  destruct (H Hd) as (? & ? & Hi). split; [done|]. split; [done|].
  cbn. apply Forall_app. split; [done|]. by apply Forall_singleton.
Qed.

Lemma tame_sendVoipEvent eventType content :
  eventType ≠ "m.call.candidates" → tame (sendVoipEvent eventType content).
Proof.
  intros Hty w (Hf & H). split.
  - cbn. rewrite candidatesFollow_app, Hf. cbn.
    unfold carriesCandidates. cbn. by rewrite bool_decide_eq_false_2.
  - cbn. rewrite existsb_app. intros Hd.
    apply orb_false_iff in Hd as [Hd _]. by apply H.
Qed.

(** After a description has been handed to the transport the rest of a
    method may do what it likes. *)
Lemma tame_after_description {B} eventType content (f : unit → M B) :
  describingType eventType = true → (∀ a, sound (f a)) →
  tame (bind (sendVoipEvent eventType content) f).
Proof.
  intros Hty Hf w (Hc & H).
  set (w1 := (sendVoipEvent eventType content w).2).
  assert (Hd : existsb describesSession (sent w1) = true).
  { cbn. rewrite existsb_app. cbn. unfold describesSession. cbn.
    rewrite Hty. by rewrite orb_true_r. }
  apply (holding_extends w1); [apply Hf| |done].
  split; [|by rewrite Hd].
  cbn. rewrite candidatesFollow_app, Hc. cbn.
  unfold carriesCandidates. cbn. rewrite bool_decide_eq_false_2; [done|].
  intros ->. done.
Qed.

Create HintDb tame discriminated.
#[global] Hint Resolve tame_ret tame_this tame_read tame_emit
  tame_cancelPendingEvent tame_stopTracks tame_enableAudioTracks
  tame_clearTimeout : tame.
#[global] Hint Extern 1 (tame (assign _ _)) =>
  apply tame_assign; intros []; done : tame.
#[global] Hint Extern 1 (tame (setTimeout _ _)) =>
  apply tame_setTimeout; discriminate : tame.
#[global] Hint Extern 1 (tame (whenSettled _)) =>
  apply tame_whenSettled; reflexivity : tame.
#[global] Hint Extern 1 (tame (sendVoipEvent _ _)) =>
  apply tame_sendVoipEvent; discriminate : tame.

Ltac tame_step :=
  lazymatch goal with
  | |- tame (bind (sendVoipEvent _ _) _) =>
      first [ apply tame_after_description;
                [ solve [reflexivity | case_decide; reflexivity]
                | intros ?; sound_method ]
            | apply tame_bind; [|intros ?] ]
  | |- tame (bind _ _) => apply tame_bind; [|intros ?]
  | |- tame (if ?b then _ else _) => destruct b
  | |- tame (match ?x with _ => _ end) => destruct x
  | |- tame (let _ := _ in _) => cbv zeta
  | |- tame ?m =>
      first [ solve [eauto with tame]
            | let h := head_of m in unfold h ]
  end.
Ltac tame_method := repeat tame_step.

Lemma tame_terminate party reason shouldEmit :
  tame (terminate party reason shouldEmit).
Proof. tame_method. Qed.
#[global] Hint Resolve tame_terminate : tame.
Lemma tame_hangup reason suppressEvent : tame (hangup reason suppressEvent).
Proof. tame_method. Qed.
#[global] Hint Resolve tame_hangup : tame.

(** [queueCandidate] schedules a flush only when an invite or an answer was
    sent. *)
Lemma queueCandidate_held c w :
  inviteOrAnswerSent (call w) = false →
  exec (queueCandidate c) w
  = set_call (set_candidateSendQueue (candidateSendQueue (call w) ++ [c])
                (call w)) w.
Proof.
  intros H. unfold queueCandidate, exec. rewrite !bind_apply.
  cbn [this assign fst snd].
  replace (inviteOrAnswerSent
             (call (set_call (set_candidateSendQueue
                                (candidateSendQueue (call w) ++ [c]) (call w)) w)))
    with false by (by destruct_world w).
  cbn [negb]. by rewrite orb_true_r.
Qed.

Lemma tame_queueCandidate c : tame (queueCandidate c).
Proof.
  intros w H. destruct (existsb describesSession (sent w)) eqn:Hd.
  - apply (holding_extends w); [apply sound_queueCandidate|done..].
  - destruct H as [Hf H]. destruct (H Hd) as (Hflag & Ht & Hi).
    change ((queueCandidate c w).2) with (exec (queueCandidate c) w).
    rewrite queueCandidate_held by done.
    split; [by destruct_world w|]. intros _.
    split; [by destruct_world w|]. split; by destruct_world w.
Qed.
#[global] Hint Resolve tame_queueCandidate : tame.

Lemma tame_addRemoteCandidates cands : tame (addRemoteCandidates cands).
Proof.
  induction cands as [|c cands IH]; cbn [addRemoteCandidates]; tame_method.
Qed.
#[global] Hint Resolve tame_addRemoteCandidates : tame.

Lemma tame_gotLocalOffer_resume finally :
  sound finally → tame finally → tame (gotLocalOffer_resume finally).
Proof. intros Hs Ht. unfold gotLocalOffer_resume. tame_method. Qed.

Lemma sound_offerDone : sound offerDone.
Proof. sound_method. Qed.
Lemma tame_offerDone : tame offerDone.
Proof. tame_method. Qed.
#[global] Hint Resolve sound_offerDone tame_offerDone
  tame_gotLocalOffer_resume : tame.

Section Holding.
Context {rtc : WebRTC}.

Lemma tame_gotUserMediaForAnswer s : tame (gotUserMediaForAnswer s).
Proof. tame_method. Qed.
Lemma tame_gotLocalOffer d finally :
  sound finally → tame finally → tame (gotLocalOffer d finally).
Proof. intros Hs Ht. unfold gotLocalOffer. tame_method. Qed.
Hint Resolve tame_gotUserMediaForAnswer tame_gotLocalOffer : tame.

Ltac tame_handler :=
  lazymatch goal with
  | |- holding (exec ?m _) =>
      let T := fresh in assert (T : tame m) by tame_method; by apply T
  end.

Lemma step_holding e w w' : holding w → step e w = Some w' → holding w'.
Proof.
  intros H Hstep. destruct (existsb describesSession (sent w)) eqn:Hd.
  { eapply holding_extends; [by eapply step_sound|done..]. }
  destruct e; cbn [step] in Hstep;
    try (injection Hstep as <-; tame_handler).
  - case_decide; [|done]. injection Hstep as <-. tame_handler.
  - destruct (find _ _) as [t|] eqn:Hfind; [|done]. injection Hstep as <-.
    apply find_some in Hfind as [Hin _]. apply list_elem_of_In in Hin.
    destruct H as [Hf H0]. destruct (H0 Hd) as (_ & Ht & _).
    apply (proj1 (Forall_forall _ _) Ht) in Hin.
    assert (H : holding w) by done.
    destruct (timer_cb t); try done; cbn [fire]; tame_handler.
  - destruct (inflight w !! i) as [k|] eqn:Hk; [|done].
    destruct (settle k o) as [m|] eqn:Hm; [|done]. injection Hstep as <-.
    destruct H as [Hf H0]. destruct (H0 Hd) as (Hflag & Ht & Hi).
    assert (Hmedia : mediaRequest k = true).
    { apply (proj1 (Forall_forall _ _) Hi). by eapply list_elem_of_lookup_2. }
    assert (H1 : holding (set_inflight (delete i (inflight w)) w)).
    { split; [by destruct_world w|]. intros _.
      split; [by destruct_world w|]. split; [by destruct_world w|].
      replace (inflight (set_inflight (delete i (inflight w)) w))
        with (delete i (inflight w)) by by destruct_world w.
      by apply Forall_delete. }
    revert H1. generalize (set_inflight (delete i (inflight w)) w). intros w1 H1.
    destruct k; try done; destruct o as [[s|]|err]; cbn [settle] in Hm;
      try discriminate; injection Hm as <-;
      lazymatch goal with
      | |- holding (exec ?m _) =>
          let T := fresh in assert (T : tame m) by tame_method; by apply T
      end.
Qed.

Lemma run_holding es w w' : holding w → run es w = Some w' → holding w'.
Proof.
  revert w. induction es as [|e es IH]; intros w H; cbn [run].
  - by intros [= <-].
  - destruct (step e w) as [w1|] eqn:Hstep; [|done].
    apply IH. by eapply step_holding.
Qed.

(** X3.  On a call that starts without an invite or answer sent, every candidates
    message handed to the transport comes after an invite, an answer or a
    negotiate message of the call. *)
Theorem candidates_follow_a_description es c media w i m :
  inviteOrAnswerSent c = false →
  run es (initialWorld c media) = Some w →
  sent w !! i = Some m → ev_type m = "m.call.candidates" →
  ∃ j m', j < i ∧ sent w !! j = Some m'
          ∧ ev_type m' ∈ ["m.call.invite"; "m.call.answer"; "m.call.negotiate"].
Proof.
  intros Hflag Hrun Hi Hm.
  assert (H0 : holding (initialWorld c media)).
  { split; [done|]. intros _. split; [done|]. split; constructor. }
  destruct (run_holding _ _ _ H0 Hrun) as [Hf _].
  destruct (candidatesFollow_lookup _ _ _ _ Hf Hi Hm)
    as [?|(j & m' & Hj & Hm' & Hd)]; [done|].
  exists j, m'. split; [done|]. split; [done|].
  unfold describingType in Hd. by apply bool_decide_eq_true in Hd.
Qed.
End Holding.

Lemma candidates_follow_a_description_witness :
  ∃ j m', j < 1 ∧ sent candidatesFlushed !! j = Some m'
          ∧ ev_type m' ∈ ["m.call.invite"; "m.call.answer"; "m.call.negotiate"].
Proof.
  eapply (candidates_follow_a_description (rtc := acceptingStack)
            [ PlaceVoiceCall; Settled 0 (Fulfilled (Some 7)); NegotiationNeeded;
              Settled 0 (Fulfilled None);
              LocalIceCandidate (Some (cand "c1")); TimerFires 2 ]
            (newMatrixCall "!r" "c1" "D1") {[ 7 := [micTrack] ]}
            candidatesFlushed 1).
  - reflexivity.
  - vm_compute. reflexivity.
  - vm_compute. reflexivity.
  - reflexivity.
Defined.

(** ** Facts about the call that no event undoes *)

Lemma preserves_ret P {A} (x : A) : preserves P (ret x).
Proof. by intros w. Qed.

Lemma preserves_bind P {A B} (m : M A) (f : A → M B) :
  preserves P m → (∀ a, preserves P (f a)) → preserves P (bind m f).
Proof. intros Hm Hf w H. apply Hf, Hm, H. Qed.

(** A computation that leaves the call object alone. *)
Lemma preserves_call P {A} (m : M A) :
  (∀ w, call (m w).2 = call w) → preserves P m.
Proof. intros H w. by rewrite H. Qed.

Lemma preserves_this P {A} (f : MatrixCall → A) : preserves P (this f).
Proof. by apply preserves_call. Qed.
Lemma preserves_read P {A} (f : World → A) : preserves P (λ w, (f w, w)).
Proof. by apply preserves_call. Qed.
Lemma preserves_emit P e : preserves P (emit e).
Proof. by apply preserves_call. Qed.
Lemma preserves_setTimeout P cb delay : preserves P (setTimeout cb delay).
Proof. by apply preserves_call. Qed.
Lemma preserves_clearTimeout P h : preserves P (clearTimeout h).
Proof. by apply preserves_call. Qed.
Lemma preserves_whenSettled P k : preserves P (whenSettled k).
Proof. by apply preserves_call. Qed.
Lemma preserves_cancelPendingEvent P : preserves P cancelPendingEvent.
Proof. by apply preserves_call. Qed.
Lemma preserves_sendVoipEvent P eventType content :
  preserves P (sendVoipEvent eventType content).
Proof. by apply preserves_call. Qed.
Lemma preserves_stopTracks P s : preserves P (stopTracks s).
Proof. apply preserves_call. by destruct s. Qed.
Lemma preserves_enableAudioTracks P s : preserves P (enableAudioTracks s).
Proof. by apply preserves_call. Qed.

Lemma preserves_assign P {A} (set : A → MatrixCall → MatrixCall) v :
  (∀ c, P c → P (set v c)) → preserves P (assign set v).
Proof. intros H w. apply H. Qed.

Create HintDb preserves discriminated.
#[global] Hint Resolve preserves_ret preserves_this preserves_read
  preserves_emit preserves_setTimeout preserves_clearTimeout
  preserves_whenSettled preserves_cancelPendingEvent preserves_sendVoipEvent
  preserves_stopTracks preserves_enableAudioTracks : preserves.
#[global] Hint Extern 1 (preserves _ (assign _ _)) =>
  apply preserves_assign; intros []; cbn; done : preserves.

Ltac preserves_step :=
  lazymatch goal with
  | |- preserves _ (bind _ _) => apply preserves_bind; [|intros ?]
  | |- preserves _ (if ?b then _ else _) => destruct b
  | |- preserves _ (match ?x with _ => _ end) => destruct x
  | |- preserves _ (let _ := _ in _) => cbv zeta
  | |- preserves _ ?m =>
      first [ solve [eauto with preserves]
            | let h := head_of m in unfold h ]
  end.
Ltac preserves_method := repeat preserves_step.


Lemma preserves_addRemoteCandidates P cands :
  (∀ c v, P c → P (set_peerConn v c)) →
  preserves P (addRemoteCandidates cands).
Proof.
  intros H. induction cands as [|c cands IH]; cbn [addRemoteCandidates].
  - apply preserves_ret.
  - destruct (_ && _); [apply preserves_ret|].
    apply preserves_bind; [|by intros _].
    unfold addIceCandidate. apply preserves_bind; [apply preserves_this|].
    intros [pc|]; [|apply preserves_ret].
    apply preserves_assign. intros c0. apply H.
Qed.
#[global] Hint Extern 1 (preserves _ (addRemoteCandidates _)) =>
  apply preserves_addRemoteCandidates; intros [] ?; cbn; done : preserves.

(** Every event but the two named ones keeps a fact [P] about the call,
    when the methods shown to keep it are the other handlers. *)
Ltac fixed_handler P :=
  lazymatch goal with
  | |- _ (call (exec ?m ?w)) = _ =>
      let T := fresh in
      assert (T : preserves P m) by preserves_method; by apply (T w)
  end.

Ltac fixed_step P Hstep :=
  lazymatch type of Hstep with
  | (if decide _ then _ else _) = _ =>
      case_decide; [|done]; injection Hstep as <-; fixed_handler P
  | match find _ _ with _ => _ end = _ =>
      destruct (find _ _) as [?|]; [|done]; injection Hstep as <-;
      fixed_handler P
  | match inflight ?w !! ?i with _ => _ end = _ =>
      let k := fresh "k" in let o := fresh "o" in
      destruct (inflight w !! i) as [k|]; [|done];
      lazymatch type of Hstep with
      | match settle _ ?o with _ => _ end = _ =>
          destruct k, o as [[?|]|?]; cbn [settle] in Hstep;
          try discriminate; injection Hstep as <-;
          lazymatch goal with
          | |- ?f (call (exec ?m (set_inflight ?l ?w0))) = ?x =>
              let T := fresh in
              assert (T : preserves P m) by preserves_method;
              by apply (T (set_inflight l w0))
          end
      end
  | Some _ = _ => injection Hstep as <-; fixed_handler P
  end.

Section Fixed.
Context {rtc : WebRTC}.

(** X4.  The partner of a call is chosen once: when [opponentPartyId] is set,
    no event but a new [initWithInvite] changes it. *)
Theorem partner_is_chosen_once e w w' :
  step e w = Some w' →
  opponentPartyId (call w) ≠ None →
  (∀ msg, e ≠ InitWithInvite msg) →
  opponentPartyId (call w') = opponentPartyId (call w).
Proof.
  intros Hstep Hp Hne.
  destruct e; cbn [step] in Hstep.
  2: by destruct (Hne msg).
  6: { injection Hstep as <-. by rewrite onAnswerReceived_chosen. }
  all: fixed_step (λ c, opponentPartyId c = opponentPartyId (call w)) Hstep.
Qed.

(** X5.  The direction of a call is fixed by [placeVoiceCall] or
    [initWithInvite]: no other event changes it. *)
Theorem direction_is_fixed e w w' :
  step e w = Some w' →
  e ≠ PlaceVoiceCall →
  (∀ msg, e ≠ InitWithInvite msg) →
  direction (call w') = direction (call w).
Proof.
  intros Hstep Hp Hne.
  destruct e; cbn [step] in Hstep.
  1: done.
  1: by destruct (Hne msg).
  all: fixed_step (λ c, direction c = direction (call w)) Hstep.
Qed.

(** Once the end-of-candidates marker has been queued the flag stays set. *)
Lemma sentEndOfCandidates_stays e w w' :
  step e w = Some w' →
  sentEndOfCandidates (call w) = true →
  sentEndOfCandidates (call w') = true.
Proof.
  intros Hstep H.
  destruct e; cbn [step] in Hstep.
  all: fixed_step (λ c, sentEndOfCandidates c = true) Hstep.
Qed.
End Fixed.

Lemma partner_is_chosen_once_witness :
  opponentPartyId
    (call (after [IceConnectionStateChanged IceConnected] answered))
  = opponentPartyId (call answered).
Proof.
  apply (partner_is_chosen_once (rtc := acceptingStack)
           (IceConnectionStateChanged IceConnected) answered).
  - vm_compute. reflexivity.
  - vm_compute. discriminate.
  - intros msg. discriminate.
Defined.

Lemma direction_is_fixed_witness :
  direction (call (after [IceConnectionStateChanged IceConnected] answered))
  = direction (call answered).
Proof.
  apply (direction_is_fixed (rtc := acceptingStack)
           (IceConnectionStateChanged IceConnected) answered).
  - vm_compute. reflexivity.
  - discriminate.
  - intros msg. discriminate.
Defined.

(** * Properties of the methods *)

(** ** Termination *)

(** Everything [terminate] does to a call that has not ended. *)
Lemma terminate_effects party reason shouldEmit w :
  state (call w) ≠ Ended →
  let w' := exec (terminate party reason shouldEmit) w in
  emitted w'
  = (if shouldEmit
     then (emitted w ++ [EmitState Ended (state (call w))]) ++ [EmitHangup]
     else emitted w ++ [EmitState Ended (state (call w))])
  ∧ streams w'
    = stopStream (remoteStream (call w))
        (stopStream (screenSharingStream (call w))
           (stopStream (localAVStream (call w)) (streams w)))
  ∧ peerConn (call w') = closePeerConnection <$> peerConn (call w)
  ∧ localAVStream (call w') = localAVStream (call w)
  ∧ inviteOrAnswerSent (call w') = inviteOrAnswerSent (call w)
  ∧ makingOffer (call w') = makingOffer (call w).
Proof.
  destruct_world w. cbn [call state]. intros H.
  destruct state0; try done; destruct inviteTimeout0, shouldEmit,
    localAVStream0, screenSharingStream0, remoteStream0; destruct_conn peerConn0;
    repeat split; reflexivity.
Qed.

Lemma stopStream_stopped o store s tracks :
  (o = Some s
   ∨ ∀ tr, store !! s = Some tr → Forall (λ t, stopped t = true) tr) →
  stopStream o store !! s = Some tracks →
  Forall (λ t, stopped t = true) tracks.
Proof.
  intros H Hl. destruct o as [i|]; cbn in Hl.
  - rewrite lookup_alter in Hl. case_decide as Hi.
    + subst i. destruct (store !! s) as [tr|]; [|done]. injection Hl as <-.
      apply Forall_map. by apply Forall_true.
    + destruct H as [[= ?]|H]; [done|]. by apply H.
  - destruct H as [?|H]; [done|]. by apply H.
Qed.

Lemma stopStream_other o store s :
  o ≠ Some s → stopStream o store !! s = store !! s.
Proof.
  intros H. destruct o as [i|]; [|done]. cbn.
  rewrite lookup_alter_ne; [done|]. by intros ->.
Qed.

(** X6.  When a call that has not ended is terminated, every track of the
    streams it owns is stopped, the streams it does not own are left as they
    were, and its peer connection, if it has one, is closed. *)
Theorem terminate_releases_media party reason shouldEmit w :
  state (call w) ≠ Ended →
  let w' := exec (terminate party reason shouldEmit) w in
  (∀ s tracks, owned (call w) s → streams w' !! s = Some tracks →
     Forall (λ t, stopped t = true) tracks)
  ∧ (∀ s, ¬ owned (call w) s → streams w' !! s = streams w !! s)
  ∧ signalingState <$> peerConn (call w')
    = (λ _, Closed) <$> peerConn (call w).
Proof.
  intros Hlive w'.
  destruct (terminate_effects party reason shouldEmit w Hlive)
    as (_ & Hs & Hpc & _).
  fold w' in Hs, Hpc. split; [|split].
  - intros s tracks Ho Hl. rewrite Hs in Hl. revert Hl.
    apply stopStream_stopped.
    destruct (decide (remoteStream (call w) = Some s)) as [?|Hr]; [by left|].
    right. intros tr. apply stopStream_stopped.
    destruct (decide (screenSharingStream (call w) = Some s)) as [?|Hsc];
      [by left|].
    right. intros tr'. apply stopStream_stopped.
    left. by destruct Ho as [?|[?|?]].
  - intros s Ho. rewrite Hs. unfold owned in Ho.
    rewrite !stopStream_other; [done|naive_solver..].
  - rewrite Hpc. by destruct (peerConn (call w)).
Qed.

Lemma terminate_releases_media_witness :
  let w' := exec (terminate Remote "user_hangup" true) answered in
  streams w' !! 7 = Some [ {| kind := AudioTrack; enabled := true;
                               stopped := true |} ]
  ∧ signalingState <$> peerConn (call w') = Some Closed.
Proof.
  destruct (terminate_releases_media Remote "user_hangup" true answered)
    as (Hstop & _ & Hpc).
  - vm_compute. discriminate.
  - split; [|exact Hpc].
    vm_compute. reflexivity.
Defined.

(** ** A call that has ended *)

Lemma gotLocalIceCandidate_ended c w :
  state (call w) = Ended → exec (gotLocalIceCandidate c) w = w.
Proof.
  intros H. destruct c as [cand|]; [|done].
  unfold gotLocalIceCandidate, exec.
  rewrite bind_apply, callHasEnded_apply. cbn [fst snd].
  by rewrite bool_decide_eq_true_2.
Qed.

Lemma onHangupReceived_ended msg w :
  state (call w) = Ended → exec (onHangupReceived msg) w = w.
Proof.
  intros H. unfold onHangupReceived, exec.
  rewrite bind_apply, partyIdMatches_apply. cbn [fst snd].
  rewrite bind_apply. cbn [this fst snd].
  destruct (_ && _); [done|]. by apply terminate_ended.
Qed.

Lemma onSelectAnswerReceived_ended ev w :
  state (call w) = Ended → exec (onSelectAnswerReceived ev) w = w.
Proof.
  intros H. rewrite onSelectAnswerReceived_spec.
  destruct (sel_selected_party_id ev); [|done].
  case_decide; [|done]. by apply terminate_ended.
Qed.

Lemma onRejectReceived_ended w :
  state (call w) = Ended → exec onRejectReceived w = w.
Proof.
  intros H. unfold onRejectReceived, exec. rewrite bind_apply.
  cbn [this fst snd]. rewrite H. done.
Qed.

Section Ended.
Context {rtc : WebRTC}.

Lemma onAnswerReceived_ended ev w :
  state (call w) = Ended → exec (onAnswerReceived ev) w = w.
Proof.
  intros H. unfold onAnswerReceived, exec.
  rewrite bind_apply, callHasEnded_apply. cbn [fst snd].
  by rewrite bool_decide_eq_true_2.
Qed.

(** X7.  On a call that has ended, [hangup], [terminate], the local candidates
    of the stack and every inbound answer, candidates, select_answer,
    hangup, reject and answered-elsewhere message change nothing. *)
Theorem ended_call_ignores_signalling w :
  state (call w) = Ended →
  (∀ reason suppressEvent, exec (hangup reason suppressEvent) w = w)
  ∧ (∀ party reason shouldEmit,
       exec (terminate party reason shouldEmit) w = w)
  ∧ (∀ ev, exec (onAnswerReceived ev) w = w)
  ∧ (∀ ev, exec (onRemoteIceCandidatesReceived ev) w = w)
  ∧ (∀ ev, exec (onSelectAnswerReceived ev) w = w)
  ∧ (∀ msg, exec (onHangupReceived msg) w = w)
  ∧ exec onRejectReceived w = w
  ∧ exec onAnsweredElsewhere w = w
  ∧ (∀ c, exec (gotLocalIceCandidate c) w = w).
Proof.
  intros H. repeat split; intros.
  - by apply hangup_ended.
  - by apply terminate_ended.
  - by apply onAnswerReceived_ended.
  - unfold onRemoteIceCandidatesReceived, exec.
    rewrite bind_apply, callHasEnded_apply. cbn [fst snd].
    by rewrite bool_decide_eq_true_2.
  - by apply onSelectAnswerReceived_ended.
  - by apply onHangupReceived_ended.
  - by apply onRejectReceived_ended.
  - by apply terminate_ended.
  - by apply gotLocalIceCandidate_ended.
Qed.
End Ended.

Lemma ended_call_ignores_signalling_witness :
  exec (hangup UserHangup false) hungUp = hungUp
  ∧ exec (onHangupReceived {| hup_party_id := Some "D2"; hup_reason := None |})
      hungUp = hungUp.
Proof.
  destruct (ended_call_ignores_signalling (rtc := acceptingStack) hungUp)
    as (Hh & _ & _ & _ & _ & Hr & _).
  - vm_compute. reflexivity.
  - split; [apply Hh|apply Hr].
Defined.

(** ** Rejecting a call *)

(** What [sendVoipEvent] leaves alone. *)
Lemma sendVoipEvent_call eventType content w :
  call (exec (sendVoipEvent eventType content) w) = call w
  ∧ emitted (exec (sendVoipEvent eventType content) w) = emitted w
  ∧ timers (exec (sendVoipEvent eventType content) w) = timers w
  ∧ streams (exec (sendVoipEvent eventType content) w) = streams w.
Proof. done. Qed.



(** ** The first answer *)

Section FirstAnswer.
Context {rtc : WebRTC}.

Lemma onAnswerReceived_first ev w :
  state (call w) ≠ Ended → opponentPartyId (call w) = None →
  exec (onAnswerReceived ev) w
  = let w1 := exec (assign set_opponentVersion (ans_version ev);;
                    assign set_opponentPartyId (Some (or_null (ans_party_id ev)));;
                    setState Connecting) w in
    let selectAnswer :=
      match or_null (ans_party_id ev) with
      | Some p =>
          sendVoipEvent "m.call.select_answer" {[ "selected_party_id" := JStr p ]}
      | None => skip
      end in
    match peerConn (call w) with
    | None => exec selectAnswer w1
    | Some c =>
        match rtc_setRemoteDescription c (ans_answer ev) with
        | None =>
            exec (terminate Local (code_string SetRemoteDescription) false) w1
        | Some c' =>
            exec selectAnswer (set_call (set_peerConn (Some c') (call w1)) w1)
        end
    end.
Proof.
  intros Hlive Hnone. unfold onAnswerReceived, exec.
  rewrite bind_apply, callHasEnded_apply. cbn [fst snd].
  rewrite bool_decide_eq_false_2 by done.
  rewrite bind_apply. cbn [this fst snd]. rewrite Hnone.
  rewrite (bool_decide_eq_false_2 (None ≠ None)) by (by intros ?).
  destruct_world w. cbn [call peerConn].
  destruct peerConn0 as [c|].
  - destruct (rtc_setRemoteDescription c (ans_answer ev)) eqn:Hset;
      cbn; rewrite Hset; [|reflexivity].
    by destruct (or_null (ans_party_id ev)).
  - cbn. by destruct (or_null (ans_party_id ev)).
Qed.

(** X9.  The first answer on a call that has not ended commits its sender as
    the partner (a missing party id as null) and moves the call to
    [Connecting]; when the stack accepts the answer, a select_answer naming
    the partner is sent if and only if the partner has a party id. *)
Theorem first_answer_commits_partner ev w pc pc' :
  state (call w) ≠ Ended →
  opponentPartyId (call w) = None →
  peerConn (call w) = Some pc →
  rtc_setRemoteDescription pc (ans_answer ev) = Some pc' →
  let w' := exec (onAnswerReceived ev) w in
  opponentPartyId (call w') = Some (or_null (ans_party_id ev))
  ∧ opponentVersion (call w') = ans_version ev
  ∧ state (call w') = Connecting
  ∧ peerConn (call w') = Some pc'
  ∧ sent w'
    = sent w ++
      match or_null (ans_party_id ev) with
      | Some p =>
          [ {| ev_room := roomId (call w);
               ev_type := "m.call.select_answer";
               ev_content := envelope (call w)
                             ∪ {[ "selected_party_id" := JStr p ]} |} ]
      | None => []
      end.
Proof.
  intros Hlive Hnone Hpc Hset w'. subst w'.
  rewrite onAnswerReceived_first by done. cbv zeta. rewrite Hpc, Hset.
  destruct_world w. destruct (or_null (ans_party_id ev)) as [p|].
  - repeat split; reflexivity.
  - repeat split; try reflexivity. cbn. by rewrite app_nil_r.
Qed.

(** X10.  When the stack rejects the first answer the call ends for the local
    party with reason set_remote_description; nothing is sent and no hangup
    event is emitted. *)
Theorem rejected_answer_ends_call ev w pc :
  state (call w) ≠ Ended →
  opponentPartyId (call w) = None →
  peerConn (call w) = Some pc →
  rtc_setRemoteDescription pc (ans_answer ev) = None →
  let w' := exec (onAnswerReceived ev) w in
  state (call w') = Ended
  ∧ hangupParty (call w') = Some Local
  ∧ hangupReason (call w') = "set_remote_description"
  ∧ sent w' = sent w
  ∧ emitted w' = (emitted w ++ [EmitState Connecting (state (call w))])
                 ++ [EmitState Ended Connecting].
Proof.
  intros Hlive Hnone Hpc Hset w'. subst w'.
  rewrite onAnswerReceived_first by done. cbv zeta. rewrite Hpc, Hset.
  set (w1 := exec _ w).
  assert (Hst1 : state (call w1) = Connecting) by by destruct_world w.
  assert (Hlive1 : state (call w1) ≠ Ended) by by rewrite Hst1.
  destruct (terminate_live Local "set_remote_description" false w1 Hlive1)
    as (Hp & Hr & _).
  destruct (terminate_effects Local "set_remote_description" false w1 Hlive1)
    as (He & _).
  destruct (terminate_frame Local "set_remote_description" false w1)
    as (Hs & _).
  cbv zeta in *.
  split; [apply terminate_state|]. split; [exact Hp|]. split; [exact Hr|].
  split.
  - change (code_string SetRemoteDescription) with "set_remote_description".
    rewrite Hs. by destruct_world w.
  - change (code_string SetRemoteDescription) with "set_remote_description".
    rewrite He, Hst1. by destruct_world w.
Qed.
End FirstAnswer.

Lemma first_answer_commits_partner_witness :
  opponentPartyId (call answered) = Some (Some "D2")
  ∧ state (call answered) = Connecting
  ∧ ev_type <$> sent answered = ["m.call.invite"; "m.call.select_answer"].
Proof.
  destruct (first_answer_commits_partner (rtc := acceptingStack)
              {| ans_answer := Some {| sdp := Some "a"; sdpType := Some "answer" |};
                 ans_version := Some 0%Z; ans_party_id := Some "D2" |}
              invited
              (default newPeerConnection (peerConn (call invited)))
              (default newPeerConnection (peerConn (call answered))))
    as (Hp & _ & Hst & _ & Hs).
  - vm_compute. discriminate.
  - reflexivity.
  - reflexivity.
  - reflexivity.
  - split; [exact Hp|]. split; [exact Hst|].
    change answered
      with (exec (onAnswerReceived (rtc := acceptingStack)
              {| ans_answer := Some {| sdp := Some "a"; sdpType := Some "answer" |};
                 ans_version := Some 0%Z; ans_party_id := Some "D2" |}) invited).
    rewrite Hs. reflexivity.
Defined.

Lemma rejected_answer_ends_call_witness :
  let w' := exec (onAnswerReceived (rtc := refusingStack)
                    {| ans_answer := None; ans_version := None;
                       ans_party_id := None |}) invited in
  state (call w') = Ended ∧ sent w' = sent invited.
Proof.
  destruct (rejected_answer_ends_call (rtc := refusingStack)
              {| ans_answer := None; ans_version := None; ans_party_id := None |}
              invited (default newPeerConnection (peerConn (call invited))))
    as (Hst & _ & _ & Hs & _).
  - vm_compute. discriminate.
  - reflexivity.
  - reflexivity.
  - reflexivity.
  - split; [exact Hst|exact Hs].
Defined.

(** ** The state of the ICE connection *)

(** Running the text of a method up to its next branch. *)
Ltac run_method :=
  repeat (progress
            (rewrite ?bind_apply, ?callHasEnded_apply, ?partyIdMatches_apply;
             cbn [this assign ret skip when fst snd])).

Lemma onIceConnectionStateChanged_live s c w :
  state (call w) ≠ Ended → peerConn (call w) = Some c →
  exec (onIceConnectionStateChanged s) w
  = let w1 := set_call (set_peerConn (Some (set_iceConnectionState s c))
                          (call w)) w in
    match s with
    | IceConnected => exec (setState Connected) w1
    | IceFailedState => exec (hangup IceFailed false) w1
    | _ => w1
    end.
Proof.
  intros Hlive Hpc. destruct_world w. cbn [call state peerConn] in Hlive, Hpc.
  subst peerConn0. unfold onIceConnectionStateChanged, exec.
  run_method. cbn [call peerConn set_call set_peerConn state].
  rewrite bool_decide_eq_false_2 by done.
  run_method. cbn [call peerConn set_call set_peerConn state].
  destruct c, s; reflexivity.
Qed.

(** X11.  On a call that has not ended, the ICE state connected moves the call
    to [Connected] and sends nothing; the ICE state failed ends the call for
    the local party with reason ice_failed and sends one m.call.hangup; any
    other ICE state changes neither the state of the call nor what was
    sent. *)
Theorem ice_state_drives_the_call s c w :
  state (call w) ≠ Ended → peerConn (call w) = Some c →
  let w' := exec (onIceConnectionStateChanged s) w in
  match s with
  | IceConnected =>
      state (call w') = Connected ∧ sent w' = sent w
      ∧ emitted w' = emitted w ++ [EmitState Connected (state (call w))]
  | IceFailedState =>
      state (call w') = Ended ∧ hangupParty (call w') = Some Local
      ∧ hangupReason (call w') = "ice_failed"
      ∧ sent w' = sent w ++ [ {| ev_room := roomId (call w);
                                 ev_type := "m.call.hangup";
                                 ev_content := envelope (call w) |} ]
  | _ => state (call w') = state (call w) ∧ sent w' = sent w
         ∧ emitted w' = emitted w
  end.
Proof.
  intros Hlive Hpc w'. subst w'.
  rewrite (onIceConnectionStateChanged_live s c) by done. cbv zeta.
  set (w1 := set_call _ w).
  assert (Hlive1 : state (call w1) ≠ Ended) by by destruct_world w.
  destruct s; try (by destruct_world w).
  split; [apply hangup_state|].
  rewrite hangup_sent, decide_False by done. rewrite hangup_live by done.
  destruct (terminate_live Local "ice_failed" (negb false) w1 Hlive1)
    as (Hp & Hr & _).
  split; [exact Hp|]. split; [exact Hr|]. by destruct_world w.
Qed.

Lemma ice_state_drives_the_call_witness :
  state (call (exec (onIceConnectionStateChanged IceConnected) answered))
  = Connected.
Proof.
  destruct (ice_state_drives_the_call IceConnected
              (default newPeerConnection (peerConn (call answered))) answered)
    as (Hst & _).
  - vm_compute. discriminate.
  - reflexivity.
  - exact Hst.
Defined.

(** ** Failures of the local setup and of the sends *)

Lemma emit_error_then_terminate code w :
  state (call w) ≠ Ended →
  endsSilently code w
    (exec (emit (EmitError code);;
           terminate Local (code_string code) false) w).
Proof.
  intros Hlive. rewrite exec_bind.
  set (w1 := (emit (EmitError code) w).2).
  assert (Hlive1 : state (call w1) ≠ Ended) by done.
  destruct (terminate_live Local (code_string code) false w1 Hlive1)
    as (Hp & Hr & _).
  destruct (terminate_effects Local (code_string code) false w1 Hlive1)
    as (He & _).
  destruct (terminate_frame Local (code_string code) false w1) as (Hs & _).
  cbv zeta in *. cbn [fst].
  split; [apply terminate_state|]. split; [exact Hp|]. split; [exact Hr|].
  split; [exact Hs|exact He].
Qed.





(** ** An invite that cannot be applied *)

Section BadInvite.
Context {rtc : WebRTC}.

(** X14.  When the stack rejects the offer of an invite, or reports no remote
    stream for it, the fresh call ends for the local party with reason
    set_remote_description without ever ringing: the only event is the
    state change from fledgling to ended, no partner and no direction are
    recorded, no timer is armed and nothing is sent. *)
Theorem unusable_invite_never_rings room cid dev media msg :
  rtc_setRemoteDescription newPeerConnection (inv_offer msg) = None
  ∨ (∃ c, rtc_setRemoteDescription newPeerConnection (inv_offer msg) = Some c
          ∧ remoteStreams c = []) →
  let w' := exec (initWithInvite msg)
              (initialWorld (newMatrixCall room cid dev) media) in
  state (call w') = Ended
  ∧ hangupParty (call w') = Some Local
  ∧ hangupReason (call w') = "set_remote_description"
  ∧ emitted w' = [EmitState Ended Fledgling]
  ∧ opponentPartyId (call w') = None
  ∧ direction (call w') = None
  ∧ timers w' = [] ∧ sent w' = [].
Proof.
  intros [Hset|(c & Hset & Hstreams)] w'; subst w'; unfold initWithInvite;
    rewrite Hset.
  - repeat split; reflexivity.
  - rewrite Hstreams. destruct c as [[] ? ? ? ? ? ? ?];
      repeat split; reflexivity.
Qed.
End BadInvite.

Lemma unusable_invite_never_rings_witness :
  let w' := exec (initWithInvite (rtc := refusingStack) invite) inboundFresh in
  state (call w') = Ended ∧ emitted w' = [EmitState Ended Fledgling].
Proof.
  destruct (unusable_invite_never_rings (rtc := refusingStack) "!r" "c9" "D1"
              {[ 0 := [micTrack]; 7 := [micTrack] ]} invite)
    as (Hst & _ & _ & He & _).
  - left. reflexivity.
  - split; [exact Hst|exact He].
Defined.

(** ** Flushing the candidate queue *)

Lemma sendCandidateQueue_empty w :
  candidateSendQueue (call w) = [] → exec sendCandidateQueue w = w.
Proof.
  intros H. unfold sendCandidateQueue, exec. rewrite bind_apply.
  cbn [this fst snd]. by rewrite H.
Qed.

Lemma sendCandidateQueue_flush w :
  candidateSendQueue (call w) ≠ [] →
  let w1 := exec sendCandidateQueue w in
  candidateSendQueue (call w1) = []
  ∧ candidateSendTries (call w1) = S (candidateSendTries (call w))
  ∧ inflight w1 = inflight w ++ [KCandidates (candidateSendQueue (call w))]
  ∧ state (call w1) = state (call w).
Proof.
  destruct_world w. cbn [call candidateSendQueue].
  destruct candidateSendQueue0; [done|]. intros _. repeat split; reflexivity.
Qed.

(** X15.  A flush of an empty buffer does nothing.  A flush of a non-empty
    buffer takes the whole buffer, counts one try and hands it to the
    transport as one candidates message; if the send succeeds and nothing
    was queued meanwhile, the counter is back at 0 and nothing more is
    sent; if it fails and nothing was queued meanwhile, the buffer is what
    it was before the flush. *)
Theorem flush_takes_the_whole_buffer w :
  (candidateSendQueue (call w) = [] → exec sendCandidateQueue w = w)
  ∧ (candidateSendQueue (call w) ≠ [] →
     let q := candidateSendQueue (call w) in
     let w1 := exec sendCandidateQueue w in
     candidateSendQueue (call w1) = []
     ∧ candidateSendTries (call w1) = S (candidateSendTries (call w))
     ∧ inflight w1 = inflight w ++ [KCandidates q]
     ∧ sent w1 = sent w ++ [ {| ev_room := roomId (call w);
                                ev_type := "m.call.candidates";
                                ev_content :=
                                  envelope (call w)
                                  ∪ {[ "candidates" := JCandidates q ]} |} ]
     ∧ candidateSendTries (call (exec sendCandidateQueue_then w1)) = 0
     ∧ sent (exec sendCandidateQueue_then w1) = sent w1
     ∧ candidateSendQueue (call (exec (sendCandidateQueue_catch q) w1)) = q).
Proof.
  split; [apply sendCandidateQueue_empty|].
  intros Hq q w1.
  destruct (sendCandidateQueue_flush w Hq) as (Hq1 & Ht1 & Hi1 & _).
  fold w1 in Hq1, Ht1, Hi1.
  split; [done|]. split; [done|]. split; [done|]. split.
  - unfold w1. rewrite sendCandidateQueue_sent. subst q.
    by destruct (candidateSendQueue (call w)).
  - assert (Hthen : exec sendCandidateQueue_then w1
                    = set_call (set_candidateSendTries 0 (call w1)) w1).
    { unfold sendCandidateQueue_then. rewrite exec_bind.
      cbn [assign fst snd]. apply sendCandidateQueue_empty.
      clearbody w1. by destruct w1 as [[]]. }
    rewrite Hthen. split; [by destruct w1 as [[]]|].
    split; [by destruct w1|].
    rewrite sendCandidateQueue_catch_queue. by rewrite Hq1.
Qed.

Lemma flush_takes_the_whole_buffer_witness :
  candidateSendQueue (call (exec sendCandidateQueue queuedC3)) = []
  ∧ inflight (exec sendCandidateQueue queuedC3) = [KCandidates [cand "c3"]].
Proof.
  destruct (flush_takes_the_whole_buffer queuedC3) as (_ & H).
  destruct H as (Hq & _ & Hi & _); [discriminate|].
  split; [exact Hq|exact Hi].
Defined.

(** ** The end-of-candidates marker *)

Lemma gotLocalIceCandidate_marker_again c w :
  sentEndOfCandidates (call w) = true → candidate c = "" →
  exec (gotLocalIceCandidate (Some c)) w = w.
Proof.
  intros Hsent Hc. unfold gotLocalIceCandidate, exec.
  rewrite bind_apply, callHasEnded_apply. cbn [fst snd].
  destruct (bool_decide _); [done|].
  rewrite bind_apply. cbn [this fst snd]. rewrite Hsent, Hc. done.
Qed.

Lemma onIceGatheringStateChange_marker_again g w :
  sentEndOfCandidates (call w) = true →
  exec (onIceGatheringStateChange g) w
  = match peerConn (call w) with
    | Some c =>
        set_call (set_peerConn (Some (set_iceGatheringState g c)) (call w)) w
    | None => w
    end.
Proof.
  intros Hsent. destruct_world w. cbn [call sentEndOfCandidates] in Hsent.
  subst. unfold onIceGatheringStateChange, exec. run_method.
  cbn [call peerConn]. destruct peerConn0 as [c|]; run_method;
    cbn [call set_call set_peerConn sentEndOfCandidates peerConn];
    by rewrite andb_false_r.
Qed.

(** X16.  The end-of-candidates marker is queued.  While the flag
    [sentEndOfCandidates] is clear, an empty candidate of the stack on a
    call that has not ended, and the end of the gathering on a call with a
    peer connection, append the marker to the send queue and set the
    flag. *)
Theorem end_of_candidates_is_queued w :
  sentEndOfCandidates (call w) = false →
  (∀ c, state (call w) ≠ Ended → candidate c = "" →
     let w' := exec (gotLocalIceCandidate (Some c)) w in
     candidateSendQueue (call w') = candidateSendQueue (call w) ++ [c]
     ∧ sentEndOfCandidates (call w') = true)
  ∧ (∀ pc, peerConn (call w) = Some pc →
     let w' := exec (onIceGatheringStateChange GatheringComplete) w in
     candidateSendQueue (call w')
     = candidateSendQueue (call w)
       ++ [ {| candidate := ""; sdpMid := None; sdpMLineIndex := None |} ]
     ∧ sentEndOfCandidates (call w') = true).
Proof.
  intros Hsent. destruct_world w. cbn [call sentEndOfCandidates] in Hsent.
  subst. split.
  - intros [cs ? ?] Hlive Hc. cbn [call state candidate] in Hlive, Hc. subst.
    destruct state0; try done;
      destruct inviteOrAnswerSent0, candidateSendTries0 as [|n],
        (decide (direction0 = Some Inbound));
      split; unfold gotLocalIceCandidate, queueCandidate, exec; run_method;
      cbn; rewrite ?decide_True, ?decide_False by done; reflexivity.
  - intros pc Hpc. cbn [call peerConn] in Hpc. subst.
    destruct state0, inviteOrAnswerSent0, candidateSendTries0 as [|n],
        (decide (direction0 = Some Inbound));
      split; unfold onIceGatheringStateChange, queueCandidate, exec;
      run_method; cbn; rewrite ?decide_True, ?decide_False by done;
      reflexivity.
Qed.

Lemma end_of_candidates_is_queued_witness :
  candidateSendQueue
    (call (exec (onIceGatheringStateChange GatheringComplete) invited))
  = [ {| candidate := ""; sdpMid := None; sdpMLineIndex := None |} ]
  ∧ sentEndOfCandidates
      (call (exec (onIceGatheringStateChange GatheringComplete) invited))
    = true.
Proof.
  refine (proj2 (end_of_candidates_is_queued invited _) _ _);
    vm_compute; reflexivity.
Defined.

Section Marker.
Context {rtc : WebRTC}.

(** X17.  The end-of-candidates marker is queued once.  Once the flag
    [sentEndOfCandidates] is set no event clears it, an empty candidate of
    the stack changes nothing, and a change of the gathering state changes
    nothing but the state recorded in the connection: no second marker is
    queued. *)
Theorem end_of_candidates_only_once w :
  sentEndOfCandidates (call w) = true →
  (∀ e w', step e w = Some w' → sentEndOfCandidates (call w') = true)
  ∧ (∀ c, candidate c = "" → exec (gotLocalIceCandidate (Some c)) w = w)
  ∧ (∀ g, exec (onIceGatheringStateChange g) w
          = match peerConn (call w) with
            | Some c =>
                set_call (set_peerConn (Some (set_iceGatheringState g c))
                            (call w)) w
            | None => w
            end).
Proof.
  intros H. split; [|split].
  - intros e w' Hstep. by eapply sentEndOfCandidates_stays.
  - intros c Hc. by apply gotLocalIceCandidate_marker_again.
  - intros g. by apply onIceGatheringStateChange_marker_again.
Qed.
End Marker.

Lemma end_of_candidates_only_once_witness :
  exec (gotLocalIceCandidate (Some (cand ""))) markerQueued = markerQueued.
Proof.
  refine (proj1 (proj2 (end_of_candidates_only_once (rtc := acceptingStack)
                          markerQueued _)) (cand "") _);
    vm_compute; reflexivity.
Defined.

(** ** Who ends a call *)

Lemma terminate_endedBy party reason shouldEmit w :
  state (call w) ≠ Ended →
  endedBy party reason shouldEmit w
    (exec (terminate party reason shouldEmit) w)
  ∧ sent (exec (terminate party reason shouldEmit) w) = sent w.
Proof.
  intros Hlive.
  destruct (terminate_live party reason shouldEmit w Hlive)
    as (Hp & Hr & Ht & _).
  destruct (terminate_effects party reason shouldEmit w Hlive) as (He & _).
  destruct (terminate_frame party reason shouldEmit w) as (Hs & _).
  repeat split; try done. apply terminate_state.
Qed.

(** X18.  How the remote side ends a call that has not ended.  A hangup from
    the chosen partner, or any hangup while no partner is chosen, ends the
    call for the remote party with the reason of the message, user_hangup
    if it has none or an empty one; a hangup from another party is ignored.
    A reject ends a call in state invite_sent and is ignored in every other
    state.  An answer given elsewhere ends the call whoever announces it.
    The call sends nothing in return. *)
Theorem remote_party_ends_call w :
  state (call w) ≠ Ended →
  (∀ msg,
     let w' := exec (onHangupReceived msg) w in
     if decide (opponentPartyId (call w) = None
                ∨ opponentPartyId (call w) = Some (or_null (hup_party_id msg)))
     then endedBy Remote
            (default (code_string UserHangup) (or_null (hup_reason msg)))
            true w w' ∧ sent w' = sent w
     else w' = w)
  ∧ (let w' := exec onRejectReceived w in
     if decide (state (call w) = InviteSent)
     then endedBy Remote (code_string UserHangup) true w w' ∧ sent w' = sent w
     else w' = w)
  ∧ (let w' := exec onAnsweredElsewhere w in
     endedBy Remote (code_string AnsweredElsewhere) true w w'
     ∧ sent w' = sent w).
Proof.
  intros Hlive. split; [|split].
  - intros msg. cbv zeta. unfold onHangupReceived, exec. run_method.
    case_decide as Hp.
    + assert (negb (bool_decide
                      (Some (or_null (hup_party_id msg))
                       = opponentPartyId (call w)))
              && bool_decide (opponentPartyId (call w) ≠ None) = false)
        as ->.
      { destruct Hp as [Hp|Hp]; rewrite Hp.
        - by rewrite andb_false_r.
        - by rewrite bool_decide_eq_true_2. }
      by apply terminate_endedBy.
    + assert (negb (bool_decide
                      (Some (or_null (hup_party_id msg))
                       = opponentPartyId (call w)))
              && bool_decide (opponentPartyId (call w) ≠ None) = true)
        as ->; [|done].
      apply andb_true_intro. split.
      * apply negb_true_iff, bool_decide_eq_false_2. naive_solver.
      * apply bool_decide_eq_true_2. naive_solver.
  - cbv zeta. unfold onRejectReceived, exec. run_method.
    case_decide as Hs.
    + rewrite bool_decide_eq_true_2 by done. by apply terminate_endedBy.
    + by rewrite bool_decide_eq_false_2.
  - by apply terminate_endedBy.
Qed.

Lemma remote_party_ends_call_witness :
  endedBy Remote "user_hangup" true inboundRinging hungUp
  ∧ sent hungUp = sent inboundRinging.
Proof.
  refine (proj1 (remote_party_ends_call inboundRinging _)
            {| hup_party_id := Some "D2"; hup_reason := None |}).
  vm_compute. discriminate.
Defined.

(** X19.  [hangup] on a call that has not ended ends it for the local party
    with the code as its reason, cancels the invite timer and emits the
    state event and then, unless the caller suppresses it, the hangup
    event. *)
Theorem local_hangup_ends_call reason suppressEvent w :
  state (call w) ≠ Ended →
  let w' := exec (hangup reason suppressEvent) w in
  endedBy Local (code_string reason) (negb suppressEvent) w w'
  ∧ timers w' = match inviteTimeout (call w) with
                | Some h => filter (λ t, timer_id t ≠ h) (timers w)
                | None => timers w
                end.
Proof.
  intros Hlive. cbv zeta. rewrite hangup_live by done.
  destruct (sendVoipEvent_call "m.call.hangup" ∅
              (exec (terminate Local (code_string reason) (negb suppressEvent))
                 w)) as (Hc & He & Ht & _).
  destruct (terminate_endedBy Local (code_string reason) (negb suppressEvent)
              w Hlive) as ((H1 & H2 & H3 & H4 & H5) & _).
  destruct (terminate_live Local (code_string reason) (negb suppressEvent)
              w Hlive) as (_ & _ & _ & Htm).
  unfold endedBy. rewrite Hc, He, Ht. done.
Qed.

Lemma local_hangup_ends_call_witness :
  endedBy Local "user_hangup" true invited
    (exec (hangup UserHangup false) invited)
  ∧ timers (exec (hangup UserHangup false) invited) = [].
Proof.
  refine (local_hangup_ends_call UserHangup false invited _).
  vm_compute. discriminate.
Defined.

(** ** Mute and hold *)

Lemma updateMuteStatus_none w :
  localAVStream (call w) = None → exec updateMuteStatus w = w.
Proof. intros H. unfold updateMuteStatus, exec. run_method. by rewrite H. Qed.

Lemma updateMuteStatus_gates s tracks w :
  localAVStream (call w) = Some s → streams w !! s = Some tracks →
  exec updateMuteStatus w
  = set_streams (<[s := map (muteStatus (call w)) tracks]> (streams w)) w.
Proof.
  intros Hl Hs. unfold updateMuteStatus, exec. run_method. rewrite Hl.
  run_method. unfold setTracksEnabled. cbn [fst snd].
  destruct w as [c snt inf can emi tim nxt str].
  cbn [streams call] in Hl, Hs. unfold set_streams.
  cbn [streams call sent inflight cancelled emitted timers nextTimer].
  f_equal.
  apply map_eq. intros i. destruct (decide (i = s)) as [->|Hi].
  - rewrite !lookup_alter, lookup_insert, !decide_True by done. rewrite Hs.
    cbv [fmap option_fmap option_map]. f_equal. rewrite map_map.
    apply map_ext. intros [[] e st]; reflexivity.
  - rewrite !lookup_alter, lookup_insert, !decide_False by done.
    reflexivity.
Qed.

(** X20.  The mute flags and the hold flag gate the local tracks.  On a call
    with a local stream, after [setMicrophoneMuted], [setLocalVideoMuted]
    or a [setRemoteOnHold] that changes the flag, every audio track of the
    stream is enabled exactly when the microphone is not muted and the
    remote is not on hold, and every video track exactly when the video is
    not muted and the remote is not on hold; kind and stopped flag of the
    tracks, the other streams and the rest of the call stay as they were.
    So taking a call off hold does not undo a mute, and a mute lifted while
    on hold leaves the track disabled.  [setRemoteOnHold] with the value
    the flag has changes nothing. *)
Theorem mute_and_hold_gate_the_tracks s tracks w :
  localAVStream (call w) = Some s → streams w !! s = Some tracks →
  (∀ muted,
     exec (setMicrophoneMuted muted) w
     = let c' := set_micMuted muted (call w) in
       set_streams (<[s := map (muteStatus c') tracks]> (streams w))
         (set_call c' w))
  ∧ (∀ muted,
     exec (setLocalVideoMuted muted) w
     = let c' := set_vidMuted muted (call w) in
       set_streams (<[s := map (muteStatus c') tracks]> (streams w))
         (set_call c' w))
  ∧ (∀ onHold,
     exec (setRemoteOnHold onHold) w
     = if decide (remoteOnHold (call w) = onHold) then w
       else let c' := set_remoteOnHold onHold (call w) in
            set_streams (<[s := map (muteStatus c') tracks]> (streams w))
              (set_call c' w)).
Proof.
  intros Hl Hs. split; [|split].
  - intros muted. unfold setMicrophoneMuted. rewrite exec_bind.
    cbv zeta. erewrite updateMuteStatus_gates; [reflexivity| |];
      destruct_world w; done.
  - intros muted. unfold setLocalVideoMuted. rewrite exec_bind.
    cbv zeta. erewrite updateMuteStatus_gates; [reflexivity| |];
      destruct_world w; done.
  - intros onHold. unfold setRemoteOnHold, isRemoteOnHold.
    unfold exec at 1. run_method. case_decide as Hh.
    + by rewrite bool_decide_eq_true_2.
    + rewrite bool_decide_eq_false_2 by done. rewrite bind_apply.
      cbn [assign fst snd]. cbv zeta.
      change ((updateMuteStatus ?w0).2) with (exec updateMuteStatus w0).
      erewrite updateMuteStatus_gates; [reflexivity| |];
        destruct_world w; done.
Qed.

Lemma mute_and_hold_gate_the_tracks_witness :
  streams (exec (setMicrophoneMuted true) invited)
  = {[ 7 := [ {| kind := AudioTrack; enabled := false; stopped := false |} ] ]}.
Proof.
  rewrite (proj1 (mute_and_hold_gate_the_tracks 7
                    [ {| kind := AudioTrack; enabled := true;
                         stopped := false |} ] invited
                    ltac:(vm_compute; reflexivity)
                    ltac:(vm_compute; reflexivity)) true).
  vm_compute. reflexivity.
Defined.

(** ** The media arrives *)

Lemma audible_enable s store :
  is_Some (store !! s) → audible s (alter (map enableAudio) s store).
Proof.
  intros [tracks Hs]. exists (map enableAudio tracks). split.
  - by rewrite lookup_alter, decide_True, Hs.
  - apply Forall_map, Forall_forall. by intros [[] e st] _.
Qed.

Lemma audible_stopStream o s store :
  audible s store → audible s (stopStream o store).
Proof.
  intros (tracks & Hs & Ha). destruct o as [i|]; [|by exists tracks].
  unfold stopStream. destruct (decide (i = s)) as [->|Hi].
  - exists (map stopTrack tracks). split.
    + by rewrite lookup_alter, decide_True, Hs.
    + apply Forall_map. eapply Forall_impl; [exact Ha|]. by intros [].
  - exists tracks. split; [|done]. by rewrite lookup_alter, decide_False.
Qed.

Lemma audible_terminate party reason shouldEmit s w :
  audible s (streams w) →
  audible s (streams (exec (terminate party reason shouldEmit) w)).
Proof.
  intros Ha. destruct (decide (state (call w) = Ended)) as [He|He].
  - by rewrite terminate_ended.
  - destruct (terminate_effects party reason shouldEmit w He) as (_ & -> & _).
    by do 3 apply audible_stopStream.
Qed.

(** Computations that keep the audio tracks of [s] enabled. *)
Lemma audible_bind s {A B} (m : M A) (f : A → M B) w :
  (∀ w0, audible s (streams w0) → audible s (streams (m w0).2)) →
  (∀ a w0, audible s (streams w0) → audible s (streams (f a w0).2)) →
  audible s (streams w) → audible s (streams (bind m f w).2).
Proof. intros Hm Hf H. rewrite bind_apply. by apply Hf, Hm. Qed.

Lemma audible_setState s st w :
  audible s (streams w) → audible s (streams (setState st w).2).
Proof. done. Qed.

Lemma audible_addStream s i w :
  audible s (streams w) → audible s (streams (addStream i w).2).
Proof.
  intros H. unfold addStream. rewrite bind_apply. cbn [this fst snd].
  by destruct (peerConn (call w)).
Qed.

Section Arrival.
Context {rtc : WebRTC}.

Lemma gotUserMediaForAnswer_audible stream w :
  state (call w) ≠ Ended → is_Some (streams w !! stream) →
  audible stream (streams (exec (gotUserMediaForAnswer stream) w)).
Proof.
  intros Hlive Hs. apply audible_enable in Hs.
  unfold gotUserMediaForAnswer, exec. run_method.
  rewrite bool_decide_eq_false_2 by done. run_method.
  set (w1 := (setState CreateAnswer _).2).
  assert (H1 : audible stream (streams w1)).
  { by apply audible_setState, audible_addStream. }
  clearbody w1.
  destruct (peerConn (call w1)) as [c|].
  - destruct (rtc_createAnswer c) as [myAnswer|];
      [|by apply audible_terminate].
    destruct (rtc_setLocalDescription c (Some myAnswer)) as [c'|];
      [|by apply audible_terminate].
    done.
  - done.
Qed.

Lemma gotUserMediaForInvite_audible stream w :
  state (call w) ≠ Ended → is_Some (streams w !! stream) →
  audible stream (streams (exec (gotUserMediaForInvite stream) w)).
Proof.
  intros Hlive Hs. apply audible_enable in Hs.
  unfold gotUserMediaForInvite, exec. run_method.
  rewrite bool_decide_eq_false_2 by done. run_method.
  by apply audible_addStream.
Qed.

Lemma gotUserMediaForAnswer_flags stream w :
  let c' := call (exec (gotUserMediaForAnswer stream) w) in
  micMuted c' = micMuted (call w) ∧ vidMuted c' = vidMuted (call w)
  ∧ remoteOnHold c' = remoteOnHold (call w).
Proof.
  cbv zeta. repeat split.
  - assert (T : preserves (λ c, micMuted c = micMuted (call w))
                  (gotUserMediaForAnswer stream)) by preserves_method.
    by apply (T w).
  - assert (T : preserves (λ c, vidMuted c = vidMuted (call w))
                  (gotUserMediaForAnswer stream)) by preserves_method.
    by apply (T w).
  - assert (T : preserves (λ c, remoteOnHold c = remoteOnHold (call w))
                  (gotUserMediaForAnswer stream)) by preserves_method.
    by apply (T w).
Qed.

Lemma gotUserMediaForInvite_flags stream w :
  let c' := call (exec (gotUserMediaForInvite stream) w) in
  micMuted c' = micMuted (call w) ∧ vidMuted c' = vidMuted (call w)
  ∧ remoteOnHold c' = remoteOnHold (call w).
Proof.
  cbv zeta. repeat split.
  - assert (T : preserves (λ c, micMuted c = micMuted (call w))
                  (gotUserMediaForInvite stream)) by preserves_method.
    by apply (T w).
  - assert (T : preserves (λ c, vidMuted c = vidMuted (call w))
                  (gotUserMediaForInvite stream)) by preserves_method.
    by apply (T w).
  - assert (T : preserves (λ c, remoteOnHold c = remoteOnHold (call w))
                  (gotUserMediaForInvite stream)) by preserves_method.
    by apply (T w).
Qed.

(** X21.  The media arrives unmuted.  When the local stream arrives on a call
    that has not ended, for an invite or for an answer, every audio track
    of the stream is enabled, whatever the mute flag and the hold flag of
    the call say, and the flags stay as they were: a microphone muted
    before the media is there is reported as muted while its track is
    live. *)
Theorem media_arrives_unmuted stream w :
  state (call w) ≠ Ended → is_Some (streams w !! stream) →
  (let w' := exec (gotUserMediaForInvite stream) w in
   audible stream (streams w')
   ∧ (isMicrophoneMuted w').1 = (isMicrophoneMuted w).1
   ∧ (isRemoteOnHold w').1 = (isRemoteOnHold w).1)
  ∧ (let w' := exec (gotUserMediaForAnswer stream) w in
     audible stream (streams w')
     ∧ (isMicrophoneMuted w').1 = (isMicrophoneMuted w).1
     ∧ (isRemoteOnHold w').1 = (isRemoteOnHold w).1).
Proof.
  intros Hlive Hs. split; cbv zeta.
  - destruct (gotUserMediaForInvite_flags stream w) as (Hm & _ & Hh).
    split; [by apply gotUserMediaForInvite_audible|]. by split.
  - destruct (gotUserMediaForAnswer_flags stream w) as (Hm & _ & Hh).
    split; [by apply gotUserMediaForAnswer_audible|]. by split.
Qed.

(** X22.  The mute flags and the hold flag belong to the owner: no event of
    [step] (a call of place, answer, hangup or reject, an inbound message,
    a callback of the stack, a timer, a settled promise) changes them. *)
Theorem events_keep_mute_and_hold e w w' :
  step e w = Some w' →
  micMuted (call w') = micMuted (call w)
  ∧ vidMuted (call w') = vidMuted (call w)
  ∧ remoteOnHold (call w') = remoteOnHold (call w).
Proof.
  intros Hstep. repeat split.
  - destruct e; cbn [step] in Hstep.
    all: fixed_step (λ c, micMuted c = micMuted (call w)) Hstep.
  - destruct e; cbn [step] in Hstep.
    all: fixed_step (λ c, vidMuted c = vidMuted (call w)) Hstep.
  - destruct e; cbn [step] in Hstep.
    all: fixed_step (λ c, remoteOnHold c = remoteOnHold (call w)) Hstep.
Qed.
End Arrival.

Lemma media_arrives_unmuted_witness :
  audible 7 (streams (after [ Settled 0 (Fulfilled (Some 7)) ] mutedEarly))
  ∧ micMuted (call (after [ Settled 0 (Fulfilled (Some 7)) ] mutedEarly))
    = true.
Proof.
  refine (let H := proj1 (media_arrives_unmuted (rtc := acceptingStack) 7
                            mutedEarly _ _) in conj (proj1 H) (proj1 (proj2 H))).
  - vm_compute. discriminate.
  - vm_compute. eauto.
Defined.

Lemma events_keep_mute_and_hold_witness :
  micMuted (call (after [ Settled 0 (Fulfilled (Some 7)) ] mutedEarly)) = true.
Proof.
  refine (proj1 (events_keep_mute_and_hold (rtc := acceptingStack)
                   (Settled 0 (Fulfilled (Some 7))) mutedEarly
                   (after [ Settled 0 (Fulfilled (Some 7)) ] mutedEarly) _)).
  vm_compute. reflexivity.
Defined.

(** ** Renegotiation *)

Section Negotiation.
Context {rtc : WebRTC}.

Lemma negotiate_effects description w :
  let w' := exec (negotiate description) w in
  state (call w') = state (call w)
  ∧ hangupParty (call w') = hangupParty (call w)
  ∧ emitted w' = emitted w ∧ timers w' = timers w
  ∧ inflight w' = inflight w ∧ streams w' = streams w
  ∧ (sent w' = sent w
     ∨ sdpType description = Some "offer"
       ∧ ∃ content,
           sent w' = sent w ++ [ {| ev_room := roomId (call w);
                                    ev_type := "m.call.negotiate";
                                    ev_content := content |} ]).
Proof.
  cbv zeta. unfold negotiate, exec. run_method.
  destruct (peerConn (call w)) as [c|].
  - destruct (rtc_setRemoteDescription c (Some description)) as [c1|];
      [|by repeat split; auto].
    run_method.
    destruct (bool_decide (sdpType description = Some "offer")) eqn:Ho;
      [|by repeat split; auto].
    apply bool_decide_eq_true_1 in Ho.
    destruct (rtc_createAnswer c1) as [localDesc|];
      [|by repeat split; auto].
    destruct (rtc_setLocalDescription c1 (Some localDesc)) as [c2|];
      [|by repeat split; auto].
    run_method. destruct_world w. repeat split; try reflexivity.
    right. split; [done|]. eexists. reflexivity.
  - destruct (bool_decide (sdpType description = Some "offer")) eqn:Ho;
      [|by repeat split; auto].
    apply bool_decide_eq_true_1 in Ho.
    destruct_world w. repeat split; try reflexivity.
    right. split; [done|]. eexists. reflexivity.
Qed.

End Negotiation.

(** ** Sending the description *)

(** X24.  A description replaces the queued candidates.  When the answer is
    sent, and when the offer is sent as an invite (state create_offer) or
    as a negotiate (any other state of a call that has not ended), the
    message carries the local description of the connection, the
    candidates queued so far are discarded without being sent, and the
    send is awaited. *)
Theorem description_replaces_queued_candidates w c d :
  peerConn (call w) = Some c → localDescription c = Some d →
  (let w' := exec sendAnswerAfterGathering w in
   sent w'
   = sent w ++
     [ {| ev_room := roomId (call w); ev_type := "m.call.answer";
          ev_content :=
            envelope (call w)
            ∪ {[ "answer" :=
                   JDescription
                     (Some {| sdp := sdp d; sdpType := sdpType d |}) ]} |} ]
   ∧ candidateSendQueue (call w') = []
   ∧ inflight w' = inflight w ++ [KAnswer]
   ∧ state (call w') = state (call w))
  ∧ (∀ finally, state (call w) ≠ Ended →
     let w' := exec (gotLocalOffer_resume finally) w in
     sent w'
     = sent w ++
       [ {| ev_room := roomId (call w);
            ev_type := if decide (state (call w) = CreateOffer)
                       then "m.call.invite" else "m.call.negotiate";
            ev_content :=
              envelope (call w)
              ∪ {[ (if decide (state (call w) = CreateOffer)
                    then "offer" else "description") := JDescription (Some d);
                   "lifetime" := JNum CALL_TIMEOUT_MS ]} |} ]
     ∧ candidateSendQueue (call w') = []
     ∧ inflight w' = inflight w ++ [KOffer]).
Proof.
  intros Hc Hd. split.
  - cbv zeta. unfold sendAnswerAfterGathering, sendAnswer, exec. run_method.
    rewrite Hc. destruct c as [? ? ? ld ? ? ? ?]. cbn [localDescription] in Hd.
    subst ld. run_method. destruct_world w. done.
  - intros finally Hlive. cbv zeta. unfold gotLocalOffer_resume, exec.
    run_method. rewrite bool_decide_eq_false_2 by done. run_method.
    rewrite Hc. cbn [localDescriptionOf]. rewrite Hd. destruct_world w. done.
Qed.

Lemma description_replaces_queued_candidates_witness :
  candidateSendQueue (call (exec sendAnswerAfterGathering answering)) = []
  ∧ inflight (exec sendAnswerAfterGathering answering) = [KAnswer].
Proof.
  refine (let H := proj1 (description_replaces_queued_candidates answering
                            _ _ _ _) in
          conj (proj1 (proj2 H)) (proj1 (proj2 (proj2 H))));
    vm_compute; reflexivity.
Defined.

(** ** Answering and offering *)

Section Offering.
Context {rtc : WebRTC}.

(** X25.  The media for an answer is requested once.  On a call without a
    local stream whose answer has not been sent, [answer] moves the call to
    wait_local_media and asks for the media unless a request is pending;
    a second [answer] asks for nothing.  Once the answer has been sent
    [answer] does nothing at all. *)
Theorem answer_requests_media_once w :
  (inviteOrAnswerSent (call w) = false → localAVStream (call w) = None →
   let w1 := exec answer w in
   state (call w1) = WaitLocalMedia
   ∧ waitForLocalAVStream (call w1) = true
   ∧ inflight w1 = inflight w ++ (if waitForLocalAVStream (call w) then []
                                  else [KMediaForAnswer])
   ∧ inflight (exec answer w1) = inflight w1
   ∧ sent (exec answer w1) = sent w)
  ∧ (inviteOrAnswerSent (call w) = true → exec answer w = w).
Proof.
  split.
  - intros Hs Hl. destruct_world w. cbn [call inviteOrAnswerSent localAVStream]
      in Hs, Hl. subst. cbv zeta.
    destruct waitForLocalAVStream0; repeat split;
      rewrite ?app_nil_r; reflexivity.
  - intros Hs. unfold answer, exec. run_method. by rewrite Hs.
Qed.

Lemma offerDone_releases w : makingOffer (call (exec offerDone w)) = false.
Proof. by destruct w as [[] ? ? ? ? ? ? ?]. Qed.

Lemma gotLocalOffer_resume_released w :
  let w' := exec (gotLocalOffer_resume offerDone) w in
  makingOffer (call w') = false ∨ inflight w' = inflight w ++ [KOffer].
Proof.
  cbv zeta. unfold gotLocalOffer_resume, exec. run_method.
  destruct (bool_decide (state (call w) = Ended)).
  - left. apply offerDone_releases.
  - right. by destruct w as [[] ? ? ? ? ? ? ?].
Qed.

Lemma gotLocalOffer_released description w :
  let w' := exec (gotLocalOffer description offerDone) w in
  makingOffer (call w') = false
  ∨ inflight w' = inflight w ++ [KOffer]
  ∨ timers w' = timers w ++ [ {| timer_id := nextTimer w; timer_delay := 200;
                                 timer_cb := CbOfferGathered |} ].
Proof.
  cbv zeta. unfold gotLocalOffer, exec. run_method.
  destruct (bool_decide (state (call w) = Ended));
    [left; apply offerDone_releases|].
  run_method. destruct (peerConn (call w)) as [c|] eqn:Hc;
    cbn [fmap option_fmap option_map].
  - destruct (rtc_setLocalDescription c description) as [c'|].
    + run_method.
      set (w1 := set_call (set_peerConn (Some c') (call w)) w).
      assert (Hw1 : peerConn (call w1) = Some c'
                    ∧ inflight w1 = inflight w ∧ timers w1 = timers w
                    ∧ nextTimer w1 = nextTimer w)
        by by destruct w as [[] ? ? ? ? ? ? ?].
      destruct Hw1 as (Hp & Hi & Ht & Hn). rewrite Hp.
      destruct (bool_decide (iceGatheringState <$> Some c' = Some Gathering)).
      * right. right. rewrite bind_apply. unfold setTimeout.
        cbn [skip ret fst snd]. rewrite <- Ht, <- Hn.
        by destruct w1 as [? ? ? ? ? ? ? ?].
      * destruct (gotLocalOffer_resume_released w1) as [H|H];
          [by left|right; left]. by rewrite <- Hi.
    + left. rewrite bind_apply. apply offerDone_releases.
  - run_method. rewrite Hc.
    rewrite bool_decide_eq_false_2 by done.
    destruct (gotLocalOffer_resume_released w) as [H|H]; [by left|by right; left].
Qed.

(** X26.  [makingOffer] is set only while an offer is being made.  When
    [onNegotiationNeeded] returns, either it has ignored the event, or the
    flag is clear, or the method waits: for the 200 ms of the gathering or
    for the send of the offer.  When the 200 ms are over the flag is clear
    or the method waits for the send, and when the send is settled, either
    way, the flag is clear. *)
Theorem making_offer_is_released w :
  (let w' := exec onNegotiationNeeded w in
   w' = w ∨ makingOffer (call w') = false
   ∨ inflight w' = inflight w ++ [KOffer]
   ∨ timers w' = timers w ++ [ {| timer_id := nextTimer w; timer_delay := 200;
                                  timer_cb := CbOfferGathered |} ])
  ∧ (let w' := exec (fire CbOfferGathered) w in
     makingOffer (call w') = false ∨ inflight w' = inflight w ++ [KOffer])
  ∧ (∀ o m, settle KOffer o = Some m →
     makingOffer (call (exec m w)) = false).
Proof.
  split; [|split].
  - cbv zeta. unfold onNegotiationNeeded, exec. run_method.
    destruct (_ && _); [by left|]. right. run_method.
    set (w1 := set_call (set_makingOffer true (call w)) w).
    assert (Hw1 : peerConn (call w1) = peerConn (call w)
                  ∧ inflight w1 = inflight w ∧ timers w1 = timers w
                  ∧ nextTimer w1 = nextTimer w)
      by by destruct w as [[] ? ? ? ? ? ? ?].
    destruct Hw1 as (Hp & Hi & Ht & Hn). rewrite Hp, <- Hi, <- Ht, <- Hn.
    destruct (peerConn (call w)) as [c|].
    + destruct (rtc_createOffer c) as [myOffer|].
      * apply gotLocalOffer_released.
      * left. rewrite bind_apply. apply offerDone_releases.
    + apply gotLocalOffer_released.
  - apply gotLocalOffer_resume_released.
  - intros [s|e] m Hm; cbn [settle] in Hm; injection Hm as <-;
      rewrite exec_bind; apply offerDone_releases.
Qed.
End Offering.

Lemma answer_requests_media_once_witness :
  inflight (exec (answer (rtc := acceptingStack)) inboundRinging)
  = [KMediaForAnswer].
Proof.
  refine (proj1 (proj2 (proj2
            (proj1 (answer_requests_media_once (rtc := acceptingStack)
                      inboundRinging) _ _))));
    vm_compute; reflexivity.
Defined.

Lemma making_offer_is_released_witness :
  makingOffer
    (call (exec (gotLocalOffer_sent;; offerDone) offerInFlight)) = false.
Proof.
  refine (proj2 (proj2 (making_offer_is_released (rtc := acceptingStack)
                          offerInFlight))
            (Fulfilled None) _ _).
  vm_compute. reflexivity.
Defined.
